(** * The lightbox of the photo gallery: navigation, filmstrip and layout

    A shallow embedding of [SharedModal] (the viewer component), of the
    page-load builder [getStaticProps] and of [shuffleArray], followed by
    the properties of the specification that concern them.

    - JavaScript numbers that go through division and [Math.round] are
      IEEE 754 binary64 values ([spec_float] at precision 53); identifiers
      and array positions, which the code only compares and increments,
      are integers ([Z]).
    - The component state ([useState]) is an explicit record passed from
      one event to the next; the callbacks received as props
      ([changePhotoId], [closeModal]) are recorded as a trace of calls.
    - [Math.random] is an oracle handed to [shuffleArray]. *)

From Stdlib Require Import ZArith Lia Bool Ascii String.
From Stdlib Require Import SpecFloat.
From stdpp Require Import base tactics option list numbers strings.

Local Open Scope Z_scope.

(** ** JavaScript numbers *)

Module JS.

Definition number := spec_float.

Definition prec : Z := 53.
Definition emax : Z := 1024.

Definition NaN : number := S754_nan.

(** The number denoted by an integer literal or held by an integer
    attribute; rounded to nearest even beyond 2^53. *)
Definition of_Z (z : Z) : number := binary_normalize prec emax z 0 false.

Definition sub (a b : number) : number := SFsub prec emax a b.
Definition mul (a b : number) : number := SFmul prec emax a b.
Definition div (a b : number) : number := SFdiv prec emax a b.

(** [a > b]; false as soon as one side is NaN. *)
Definition gt (a b : number) : bool := SFltb b a.

(** [Math.min(a, b)]: NaN if either is NaN, and -0 is below +0. *)
Definition Math_min (a b : number) : number :=
  match SFcompare a b with
  | None => NaN
  | Some Lt => a
  | Some Gt => b
  | Some Eq => match a with S754_zero true => a | _ => b end
  end.

(** The signed mantissa of a finite number: its value is
    [signed s m * 2^e]. *)
Definition signed (s : bool) (m : positive) : Z :=
  if s then Z.neg m else Z.pos m.

(** [floor (v / 2^k + 1/2)] for [k > 0], in exact integer arithmetic. *)
Definition round_half_up (v k : Z) : Z := Z.shiftr (v + 2 ^ (k - 1)) k.

(** [Math.round(x)]: the integer closest to [x], the one towards
    +infinity when two are equally close; NaN, the infinities and the
    zeros are returned as they are, and a negative [x] that rounds to
    zero gives -0. *)
Definition Math_round (x : number) : number :=
  match x with
  | S754_finite s m e =>
      if 0 <=? e then x
      else binary_normalize prec emax (round_half_up (signed s m) (- e)) 0 s
  | _ => x
  end.

Definition is_digit (c : ascii) : bool :=
  let n := Z.of_nat (nat_of_ascii c) in (48 <=? n) && (n <=? 57).

Fixpoint digits_value (acc : Z) (s : string) : option Z :=
  match s with
  | EmptyString => Some acc
  | String c s' =>
      if is_digit c
      then digits_value (10 * acc + (Z.of_nat (nat_of_ascii c) - 48)) s'
      else None
  end.

(** [Number(s)] on the strings the gallery stores in [width] and
    [height]: a string of decimal digits is the number it spells, the
    empty string is +0. Any other string is answered NaN here: signs,
    fractions, exponents and surrounding blanks of the full numeric
    string grammar are left out, and the statements below that depend
    on [Number] assume decimal dimensions. *)
Definition Number (s : string) : number :=
  match digits_value 0 s with
  | Some n => of_Z n
  | None => NaN
  end.


(** The integer a number is, when it is one. *)
Definition integer_value (x : number) : option Z :=
  match x with
  | S754_zero _ => Some 0
  | S754_finite s m e =>
      if 0 <=? e then Some (signed s m * 2 ^ e)
      else if Z.pos m mod 2 ^ (- e) =? 0 then Some (signed s m / 2 ^ (- e))
      else None
  | _ => None
  end.



End JS.

(** ** utils/types.ts: [ImageProps] and [SharedModalProps] *)

Record ImageProps := {
  id : Z;
  height : string;
  width : string;
  public_id : string;
  format : string;
  blurDataUrl : option string;
  navigationId : Z;
}.

(** The two callbacks of [SharedModalProps]; a handler's effect is the
    list of calls it makes, in order. *)
Inductive Call :=
  | changePhotoId (newVal : Z)
  | closeModal.

Record SharedModalProps := {
  index : Z;
  images : option (list ImageProps);
  currentPhoto : option ImageProps;
  navigation : bool;
  direction : option Z;
}.

(** ** SharedModal: state *)

Module Dimensions.
Record t := mk { width : JS.number; height : JS.number }.
End Dimensions.

(** [window.innerWidth] and [window.innerHeight]: integer pixel counts. *)
Record Window := { innerWidth : Z; innerHeight : Z }.

(** The two [useState] cells of the component. *)
Record State := {
  loaded : bool;
  dimensions : Dimensions.t;
}.

(** [useState(false)] and [useState({ width: 1280, height: 853 })]. *)
Definition initialState : State :=
  {| loaded := false;
     dimensions := Dimensions.mk (JS.of_Z 1280) (JS.of_Z 853) |}.

Definition setLoaded (v : bool) (s : State) : State :=
  {| loaded := v; dimensions := dimensions s |}.

Definition setDimensions (d : Dimensions.t) (s : State) : State :=
  {| loaded := loaded s; dimensions := d |}.

(** ** SharedModal: layout *)

Definition calculateDimensions
    (currentImage : ImageProps) (window : Window) (s : State) : State :=
  let maxWidth :=
    JS.Math_min (JS.of_Z 1280) (JS.sub (JS.of_Z (innerWidth window)) (JS.of_Z 100)) in
  let maxHeight := JS.sub (JS.of_Z (innerHeight window)) (JS.of_Z 100) in
  let imageWidth := JS.Number (width currentImage) in
  let imageHeight := JS.Number (height currentImage) in
  let ratio := JS.div imageWidth imageHeight in
  let '(width, height) :=
    if JS.gt ratio (JS.of_Z 1) then
      (* Landscape *)
      let width := JS.Math_min maxWidth imageWidth in
      (width, JS.div width ratio)
    else
      (* Portrait *)
      let height := JS.Math_min maxHeight imageHeight in
      (JS.mul height ratio, height) in
  setDimensions (Dimensions.mk (JS.Math_round width) (JS.Math_round height)) s.

(** ** utils/range.ts *)

(** Modelled from the spec: [range] of utils/range.ts, the helper that
    [filteredImages] calls, is not part of the sources at hand. The
    specification gives the filmstrip window as every id in
    [currentId - radius, currentId + radius] inclusive, so
    [range start end] is modelled as the integers from [start] to [end],
    both included, in increasing order. *)
Definition range (start end_ : Z) : list Z := seqZ start (end_ - start + 1).

(** ** SharedModal: filmstrip window and swipe handlers *)

(** [images?.filter(img => range(index - 15, index + 15).includes(img.id))] *)
Definition filteredImages
    (images : option (list ImageProps)) (index : Z) : option (list ImageProps) :=
  filter (λ img, id img ∈ range (index - 15) (index + 15)) <$> images.

Definition onSwipedLeft (images : option (list ImageProps)) (index : Z) : list Call :=
  match images ≫= List.find (λ img, id img =? index) with
  | Some currentImage =>
      match images ≫=
            List.find (λ img, navigationId img =? navigationId currentImage + 1) with
      | Some nextImage => [changePhotoId (id nextImage)]
      | None => []
      end
  | None => []
  end.

Definition onSwipedRight (images : option (list ImageProps)) (index : Z) : list Call :=
  match images ≫= List.find (λ img, id img =? index) with
  | Some currentImage =>
      match images ≫=
            List.find (λ img, navigationId img =? navigationId currentImage - 1) with
      | Some prevImage => [changePhotoId (id prevImage)]
      | None => []
      end
  | None => []
  end.

(** The record a swipe moves to: the two lookups of [onSwipedLeft]
    ([step = 1]) and of [onSwipedRight] ([step = -1]), keeping the record
    found instead of passing its id to [changePhotoId]. *)
Definition neighborByNavigationOrder
    (photos : list ImageProps) (currentId step : Z) : option ImageProps :=
  currentImage ← List.find (λ img, id img =? currentId) photos;
  List.find (λ img, navigationId img =? navigationId currentImage + step) photos.

(** The swipe gestures the handlers are bound to. *)
Inductive Gesture := SwipedLeft | SwipedRight.

(** [useSwipeable({ onSwipedLeft, onSwipedRight, ... })]: the handler that
    runs for a gesture. *)
Definition handlers (images : option (list ImageProps)) (index : Z) (g : Gesture)
    : list Call :=
  match g with
  | SwipedLeft => onSwipedLeft images index
  | SwipedRight => onSwipedRight images index
  end.

(** Gestures delivered while one render is on screen: every one of them
    runs the handler of that render, with the same [images] and [index]. *)
Definition fire (images : option (list ImageProps)) (index : Z) (gs : list Gesture)
    : list Call :=
  gs ≫= handlers images index.

(** ** SharedModal: what is rendered *)

(** [images ? images.find(img => img.id === index) : currentPhoto] *)
Definition currentImage (props : SharedModalProps) : option ImageProps :=
  match images props with
  | Some images => List.find (λ img, id img =? index props) images
  | None => currentPhoto props
  end.

(** The main image: the width asked of the image host and the asset. *)
Record MainImage := {
  src_width : JS.number;
  src_public_id : string;
  src_format : string;
}.

(** The block under [loaded && (...)]. A button carries the calls its
    [onClick] makes; [None] is a button that is not rendered. *)
Record Overlay := {
  prevButton : option (list Call);
  nextButton : option (list Call);
  openOriginalLink : option (string * string);
  closeButton : list Call;
}.

(** One [motion.button] of the bottom nav bar. *)
Record Thumbnail := {
  key : Z;
  selected : bool;
  onClick : list Call;
}.

Record View := {
  mainImage : MainImage;
  overlay : option Overlay;
  bottomNav : option (list Thumbnail);
}.

(** The JSX returned by [SharedModal]; [None] is the TypeError of reading
    a property of [undefined] ([currentImage.public_id], [images.length],
    [filteredImages.map]). *)
Definition SharedModal (props : SharedModalProps) (s : State) : option View :=
  currentImage ← currentImage props;
  overlay ←
    (if loaded s then
       buttons ←
         (if navigation props then
            match images props with
            | Some images =>
                Some (if 0 <? index props
                      then Some [changePhotoId (index props - 1)] else None,
                      if index props + 1 <? Z.of_nat (length images)
                      then Some [changePhotoId (index props + 1)] else None)
            | None => None
            end
          else Some (None, None));
       Some (Some {|
         prevButton := fst buttons;
         nextButton := snd buttons;
         openOriginalLink :=
           if navigation props
           then Some (public_id currentImage, format currentImage) else None;
         closeButton := [closeModal] |})
     else Some None);
  bottomNav ←
    (if navigation props then
       match filteredImages (images props) (index props) with
       | Some filteredImages =>
           Some (Some ((λ img,
             {| key := id img;
                selected := id img =? index props;
                onClick := [changePhotoId (id img)] |}) <$> filteredImages))
       | None => None
       end
     else Some None);
  Some {|
    mainImage := {| src_width := Dimensions.width (dimensions s);
                    src_public_id := public_id currentImage;
                    src_format := format currentImage |};
    overlay := overlay;
    bottomNav := bottomNav |}.

(** ** SharedModal: the component over time *)

(** What reaches the mounted component: the main image finishes loading
    ([onLoad]), the window is resized, or the parent renders it again
    with new props (a navigation changes [index]). *)
Inductive Event :=
  | Load
  | Resize (window : Window)
  | Props (props : SharedModalProps) (window : Window).

(** The effect [useEffect(..., [currentImage])]: when there is a current
    image, the dimensions are calculated at once and again on every
    resize until the effect is cleaned up. The effect is run here at
    every new props; run for an unchanged [currentImage] it computes the
    dimensions that are already there. *)
Definition effect (props : SharedModalProps) (window : Window) (s : State) : State :=
  match currentImage props with
  | Some currentImage => calculateDimensions currentImage window s
  | None => s
  end.

(** One event. The props in force are part of the configuration; the
    state cells are kept from one render to the next. *)
Definition step (c : SharedModalProps * State) (e : Event) : SharedModalProps * State :=
  let '(props, s) := c in
  match e with
  | Load => (props, setLoaded true s)
  | Resize window => (props, effect props window s)
  | Props props' window => (props', effect props' window s)
  end.

Definition mount (props : SharedModalProps) (window : Window) : SharedModalProps * State :=
  (props, effect props window initialState).

Definition run (c : SharedModalProps * State) (es : list Event) : SharedModalProps * State :=
  foldl step c es.

(** ** pages/index.tsx *)

Section shuffleArray.
Context {T : Type}.

(** [random i] is the value that
    [Math.floor(Math.random() * (i + 1))] takes in the iteration of
    index [i]. [Math.random()] is below 1, so the draw is at most [i]. *)
Variable random : nat → nat.

(** [[newArray[i], newArray[j]] = [newArray[j], newArray[i]]]. The
    loop only swaps positions inside the array (see [random]); outside
    it the array is left as it is here. *)
Definition swap (newArray : list T) (i j : nat) : list T :=
  match newArray !! i, newArray !! j with
  | Some x, Some y => <[j:=x]> (<[i:=y]> newArray)
  | _, _ => newArray
  end.

(** [for (let i = ...; i > 0; i--)], entered at [i]. *)
Fixpoint shuffle_loop (i : nat) (newArray : list T) : list T :=
  match i with
  | O => newArray
  | S i' => shuffle_loop i' (swap newArray i (random i))
  end.

Definition shuffleArray (array : list T) : list T :=
  shuffle_loop (length array - 1)%nat array.
End shuffleArray.

(** One element of [results.resources], as the media host returns it. *)
Module Cloudinary.
Record resource := {
  height : string;
  width : string;
  public_id : string;
  format : string;
}.
End Cloudinary.

Section getStaticProps.
Variable random : nat → nat.

(** [getBase64ImageUrl(image)]; [None] is a rejected promise. *)
Variable getBase64ImageUrl : ImageProps → option string.

Definition reducedResults (resources : list Cloudinary.resource) : list ImageProps :=
  imap (λ i result,
    {| id := Z.of_nat i;
       height := Cloudinary.height result;
       width := Cloudinary.width result;
       public_id := Cloudinary.public_id result;
       format := Cloudinary.format result;
       blurDataUrl := None;
       navigationId := Z.of_nat i |}) resources.

Definition originalOrder (reducedResults : list ImageProps) : list nat :=
  imap (λ i _, i) reducedResults.

Definition shuffledOrder (reducedResults : list ImageProps) : list nat :=
  shuffleArray random (originalOrder reducedResults).

(** [shuffledOrder.map(newIndex => ({...reducedResults[newIndex], id:
    reducedResults[newIndex].id, navigationId: newIndex}))]; reading
    [.id] of a missing element throws. *)
Definition randomizedResults (reducedResults : list ImageProps)
    : option (list ImageProps) :=
  mapM (λ newIndex,
    r ← reducedResults !! newIndex;
    Some {| id := id r;
            height := height r;
            width := width r;
            public_id := public_id r;
            format := format r;
            blurDataUrl := blurDataUrl r;
            navigationId := Z.of_nat newIndex |})
    (shuffledOrder reducedResults).

(** [randomizedResults[i].blurDataUrl = imagesWithBlurDataUrls[i]] *)
Definition withBlurDataUrl (image : ImageProps) (url : string) : ImageProps :=
  {| id := id image;
     height := height image;
     width := width image;
     public_id := public_id image;
     format := format image;
     blurDataUrl := Some url;
     navigationId := navigationId image |}.

(** The body of the [try]: [None] when something in it throws. *)
Definition buildImages (results : option (list Cloudinary.resource))
    : option (list ImageProps) :=
  resources ← results;
  randomizedResults ← randomizedResults (reducedResults resources);
  imagesWithBlurDataUrls ← mapM getBase64ImageUrl randomizedResults;
  Some (zip_with withBlurDataUrl randomizedResults imagesWithBlurDataUrls).

(** The [images] prop handed to the page; [results] is [None] when the
    search request fails, and the [catch] answers the empty gallery. *)
Definition getStaticProps (results : option (list Cloudinary.resource))
    : list ImageProps :=
  default [] (buildImages results).
End getStaticProps.

(** ** Invariants of a photo collection *)

(** [images[i].id === i] for every array index [i]. *)
Definition ids_match_positions (images : list ImageProps) : Prop :=
  ∀ (i : nat) (img : ImageProps), images !! i = Some img → id img = Z.of_nat i.

(** No two records have the same id. *)
Definition unique_ids (images : list ImageProps) : Prop := NoDup (id <$> images).

(** The ids are the integers [0..N-1], each carried by one record. *)
Definition dense_ids (images : list ImageProps) : Prop :=
  id <$> images ≡ₚ seqZ 0 (Z.of_nat (length images)).

(** The navigationIds are a permutation of [0..N-1]. *)
Definition navigation_bijection (images : list ImageProps) : Prop :=
  navigationId <$> images ≡ₚ seqZ 0 (Z.of_nat (length images)).

(** ** Auxiliary definitions and sample data *)

Definition swipe_step (g : Gesture) : Z :=
  match g with SwipedLeft => 1 | SwipedRight => -1 end.

Definition photo (id navigationId : Z) : ImageProps :=
  {| id := id; height := "1000"; width := "1500"; public_id := "gallery/photo";
     format := "jpg"; blurDataUrl := None; navigationId := navigationId |}.

(** Three photos browsed in the order 1, 2, 0. *)
Definition photos_shuffled : list ImageProps := [photo 0 2; photo 1 0; photo 2 1].

(** Three photos, the last two with the same navigationId. *)
Definition photos_tied : list ImageProps := [photo 0 0; photo 1 1; photo 2 1].

Definition share_navigationId (photos : list ImageProps) : Prop :=
  ∃ (i j : nat) a b,
    i ≠ j ∧ photos !! i = Some a ∧ photos !! j = Some b
    ∧ navigationId a = navigationId b.

(** Two resources, as the media host lists them. *)
Definition two_resources : list Cloudinary.resource :=
  [ {| Cloudinary.height := "1000"; Cloudinary.width := "1500";
       Cloudinary.public_id := "gallery/a"; Cloudinary.format := "jpg" |};
    {| Cloudinary.height := "1600"; Cloudinary.width := "800";
       Cloudinary.public_id := "gallery/b"; Cloudinary.format := "jpg" |} ].

(** Every draw of the shuffle is 0. *)
Definition draw_zero (i : nat) : nat := 0%nat.

(** Every placeholder request answers the same preview. *)
Definition blur_stub (image : ImageProps) : option string :=
  Some "data:image/jpeg;base64,"%string.

Definition shuffled_pair : list ImageProps :=
  getStaticProps draw_zero blur_stub (Some two_resources).

Definition is_Load (e : Event) : bool :=
  match e with Load => true | _ => false end.

Definition window_1400_900 : Window := {| innerWidth := 1400; innerHeight := 900 |}.

(** The viewer opened on photo [index] of the three shuffled photos. *)
Definition viewer_at (index : Z) : SharedModalProps :=
  {| index := index; images := Some photos_shuffled; currentPhoto := None;
     navigation := true; direction := Some 1 |}.

Definition photos_40 : list ImageProps :=
  (λ i, photo i i) <$> seqZ 0 40.


Definition photo_sized (width height : string) : ImageProps :=
  {| id := 0; height := height; width := width; public_id := "gallery/photo";
     format := "jpg"; blurDataUrl := None; navigationId := 0 |}.

(** The calls the controls of a rendered view can make: the [onClick] of
    the previous, next and close buttons and of every thumbnail. *)
Definition viewCalls (v : View) : list Call :=
  from_option (λ o, default [] (prevButton o) ++ default [] (nextButton o)
                    ++ closeButton o) [] (overlay v)
  ++ from_option (λ thumbnails, thumbnails ≫= onClick) [] (bottomNav v).

(** [Math.max(index * -100, 15 * -100)]: the [x] every thumbnail is
    animated to, in percent of its own width. *)
Definition animate_x (index : Z) : Z := Z.max (index * -100) (15 * -100).

(** ** pages/index.tsx: the grid *)

(** Whether a value that is a string, or [null] or [undefined], is
    truthy: a string is unless it is empty. *)
Definition truthy (v : option string) : bool :=
  match v with
  | Some s => negb (String.eqb s "")
  | None => false
  end.

Module Home.

(** [Number(lastViewedPhoto)]: [Number(null)] is 0. *)
Definition Number (lastViewedPhoto : option string) : JS.number :=
  match lastViewedPhoto with
  | Some s => JS.Number s
  | None => JS.of_Z 0
  end.

(** [a === b] on numbers: false on NaN, true on the two zeros. *)
Definition strict_eq (a b : JS.number) : bool := SFeqb a b.

(** A [Link] of the grid: its [key] and whether it is handed
    [lastViewedPhotoRef]. *)
Record Link := { key : Z; ref : bool }.

(** [images.map(({ id, ... }) => <Link key={id} ref={id ===
    Number(lastViewedPhoto) ? lastViewedPhotoRef : null} ...>)] *)
Definition links (images : list ImageProps) (lastViewedPhoto : option string)
    : list Link :=
  (λ img, {| key := id img;
             ref := strict_eq (JS.of_Z (id img)) (Number lastViewedPhoto) |})
  <$> images.

(** [lastViewedPhotoRef.current] once the grid is on screen: the ref
    starts as [null] and every link that is handed it stores itself in
    it, in the order of the grid. *)
Definition lastViewedPhotoRef_current (links : list Link) : option Link :=
  last (filter (λ l, ref l = true) links).

(** What one run of the effect does. *)
Inductive Effect :=
  | Idle
  | ScrollIntoView (link : Link)
  | TypeError.

(** The effect [useEffect(..., [photoId, lastViewedPhoto,
    setLastViewedPhoto])], run after the grid is rendered: what it does
    and the value of [lastViewedPhoto] it leaves. Reading
    [scrollIntoView] of [null] throws before [setLastViewedPhoto(null)]
    is reached. *)
Definition useEffect
    (images : list ImageProps) (photoId lastViewedPhoto : option string)
    : Effect * option string :=
  if truthy lastViewedPhoto && negb (truthy photoId) then
    match lastViewedPhotoRef_current (links images lastViewedPhoto) with
    | Some link => (ScrollIntoView link, None)
    | None => (TypeError, lastViewedPhoto)
    end
  else (Idle, lastViewedPhoto).

End Home.

(** ** pages/api *)

Module Api.

(** What awaiting a call gives: the value it resolves to, or the
    [message] of the error thrown, if the error has one. *)
Inductive Outcome (R : Type) :=
  | Resolved (r : R)
  | Thrown (message : option string).
Arguments Resolved {R} r.
Arguments Thrown {R} message.

(** The object passed to [res.json]. *)
Inductive Body (R : Type) :=
  | Message (message : string)
  | Failure (message : string) (error details : option string)
  | Result (result : R).
Arguments Message {R} message.
Arguments Failure {R} message error details.
Arguments Result {R} result.

Record Response (R : Type) := {
  status : Z;
  Set_Cookie : option string;
  json : Body R;
}.
Arguments status {R} r.
Arguments Set_Cookie {R} r.
Arguments json {R} r.

(** [res.status(code).json(body)] with no header set. *)
Definition respond {R} (code : Z) (body : Body R) : Response R :=
  {| status := code; Set_Cookie := None; json := body |}.

(** [response.ok] as [fetch] computes it. *)
Definition ok {R} (response : Response R) : bool :=
  (200 <=? status response) && (status response <=? 299).

(** *** pages/api/delete.ts *)

Module delete.

(** [req.query.public_id]: absent, given once, or given several times. *)
Inductive Query :=
  | Absent
  | Single (value : string)
  | Repeated (values : list string).

(** What reaches the handler; the [Cookie] header is carried by the
    request and is never read. *)
Record Request := {
  method : string;
  public_id : Query;
  cookie : option string;
}.

(** [!public_id || typeof public_id !== 'string'] *)
Definition rejected (public_id : Query) : bool :=
  match public_id with
  | Absent => true
  | Single value => String.eqb value ""
  | Repeated _ => true
  end.

(** The response, and the public ids [cloudinary.v2.uploader.destroy]
    was called with. *)
Definition handler {R} (destroy : string → Outcome R) (req : Request)
    : Response R * list string :=
  if negb (String.eqb (method req) "DELETE")
  then (respond 405 (Message "Method not allowed"), [])
  else if rejected (public_id req)
  then (respond 400 (Message "Public ID is required"), [])
  else
    match public_id req with
    | Single public_id =>
        match destroy public_id with
        | Resolved result => (respond 200 (Result result), [public_id])
        | Thrown message =>
            (respond 500 (Failure "Delete failed" message None), [public_id])
        end
    | _ => (respond 400 (Message "Public ID is required"), [])
    end.

End delete.

(** *** pages/api/admin-auth.ts *)

Module admin_auth.

(** [req.body.password] after the body is parsed: absent, a string, or
    a value of another type, of which only the truthiness is read. *)
Inductive Password :=
  | Undefined
  | Text (s : string)
  | Other (truthy : bool).

(** [body] is [None] when the parsed body is [null]. *)
Record Request := {
  method : string;
  body : option Password;
}.

(** [!password] *)
Definition missing (password : Password) : bool :=
  match password with
  | Undefined => true
  | Text s => String.eqb s ""
  | Other truthy => negb truthy
  end.

(** [password === process.env.ADMIN_PASSWORD] *)
Definition matches (password : Password) (ADMIN_PASSWORD : option string) : bool :=
  match password, ADMIN_PASSWORD with
  | Text s, Some p => String.eqb s p
  | Undefined, None => true
  | _, _ => false
  end.

(** [None] is the TypeError of destructuring a [null] body. *)
Definition handler (ADMIN_PASSWORD : option string) (req : Request)
    : option (Response Empty_set) :=
  if negb (String.eqb (method req) "POST")
  then Some (respond 405 (Message "Method not allowed"))
  else
    password ← body req;
    if missing password
    then Some (respond 400 (Message "Password is required"))
    else if matches password ADMIN_PASSWORD
    then Some {|
      status := 200;
      Set_Cookie := Some ("admin-auth=" ++ default "undefined" ADMIN_PASSWORD
                          ++ "; Path=/; HttpOnly; SameSite=Strict; Max-Age=86400")%string;
      json := Message "Authenticated" |}
    else Some (respond 401 (Message "Invalid password")).

End admin_auth.

(** *** pages/api/upload.ts *)

Module upload.

(** [form.parse(req)]: the file paths under the field [file], if the
    field is there, or the error of a body that cannot be parsed. *)
Record Request := {
  method : string;
  files_file : Outcome (option (list string));
}.

(** The calls made on the media host and on the file system. *)
Inductive Effect :=
  | uploader_upload (filepath : string)
  | unlinkSync (filepath : string).

(** The [catch]: [error.message || 'Unknown error'] *)
Definition failed {R} (message : option string) : Response R :=
  respond 500
    (Failure "Upload failed" message
       (Some (match message with
              | Some m => if String.eqb m "" then "Unknown error"%string else m
              | None => "Unknown error"%string
              end))).

(** The response and the calls made, in order. The options passed to
    [upload] (folder, watermark and caption) are constants and are left
    out. *)
Definition handler {R}
    (upload : string → Outcome R) (unlink : string → Outcome unit)
    (req : Request) : Response R * list Effect :=
  if negb (String.eqb (method req) "POST")
  then (respond 405 (Message "Method not allowed"), [])
  else
    match files_file req with
    | Thrown message => (failed message, [])
    | Resolved files =>
        match files ≫= head with
        | None => (respond 400 (Message "No file uploaded"), [])
        | Some filepath =>
            match upload filepath with
            | Thrown message => (failed message, [uploader_upload filepath])
            | Resolved result =>
                match unlink filepath with
                | Thrown message =>
                    (failed message, [uploader_upload filepath; unlinkSync filepath])
                | Resolved _ =>
                    (respond 200 (Result result),
                     [uploader_upload filepath; unlinkSync filepath])
                end
            end
        end
    end.

End upload.

End Api.

(** ** pages/admin.tsx *)

Module Admin.

(** Of a [File], its name and its size in bytes. *)
Record File := { name : string; size : Z }.

Module Status.
Inductive t := waiting | uploading | completed | error.

#[global] Instance eq_dec : EqDecision t.
Proof. solve_decision. Defined.
End Status.

Module UploadingFile.
Record t := mk {
  file : File;
  progress : Z;
  status : Status.t;
  error : option string;
  preview : option string;
}.
End UploadingFile.

Module CloudinaryImage.
Record t := mk {
  public_id : string;
  format : string;
  width : Z;
  height : Z;
}.
End CloudinaryImage.

Definition MAX_FILE_SIZE : Z := 10 * 1024 * 1024.

(** The item [adminAuth] of [localStorage], as [checkAuth] reads it: a
    string that parses to an object with a numeric [timestamp], or
    anything else ([JSON.parse] throws, or the timestamp is not a
    number). Timestamps are whole milliseconds, as [Date.now()] gives
    them. *)
Inductive AuthData :=
  | Timestamp (timestamp : Z)
  | Unreadable.

(** The cells of [useState], [clearQueueTimeoutRef.current] as the time
    at which the pending timer clears the queue, and the item
    [adminAuth] of [localStorage]. *)
Record State := {
  uploadingFiles : list UploadingFile.t;
  isProcessing : bool;
  images : list CloudinaryImage.t;
  isDeleting : option string;
  password : string;
  isAuthenticated : bool;
  error : string;
  clearQueueTimeout : option Z;
  adminAuth : option AuthData;
}.

Definition setUploadingFiles (v : list UploadingFile.t) (s : State) : State :=
  {| uploadingFiles := v; isProcessing := isProcessing s; images := images s;
     isDeleting := isDeleting s; password := password s;
     isAuthenticated := isAuthenticated s; error := error s;
     clearQueueTimeout := clearQueueTimeout s; adminAuth := adminAuth s |}.

Definition setIsProcessing (v : bool) (s : State) : State :=
  {| uploadingFiles := uploadingFiles s; isProcessing := v; images := images s;
     isDeleting := isDeleting s; password := password s;
     isAuthenticated := isAuthenticated s; error := error s;
     clearQueueTimeout := clearQueueTimeout s; adminAuth := adminAuth s |}.

Definition setImages (v : list CloudinaryImage.t) (s : State) : State :=
  {| uploadingFiles := uploadingFiles s; isProcessing := isProcessing s; images := v;
     isDeleting := isDeleting s; password := password s;
     isAuthenticated := isAuthenticated s; error := error s;
     clearQueueTimeout := clearQueueTimeout s; adminAuth := adminAuth s |}.

Definition setIsDeleting (v : option string) (s : State) : State :=
  {| uploadingFiles := uploadingFiles s; isProcessing := isProcessing s;
     images := images s; isDeleting := v; password := password s;
     isAuthenticated := isAuthenticated s; error := error s;
     clearQueueTimeout := clearQueueTimeout s; adminAuth := adminAuth s |}.

Definition setIsAuthenticated (v : bool) (s : State) : State :=
  {| uploadingFiles := uploadingFiles s; isProcessing := isProcessing s;
     images := images s; isDeleting := isDeleting s; password := password s;
     isAuthenticated := v; error := error s;
     clearQueueTimeout := clearQueueTimeout s; adminAuth := adminAuth s |}.

Definition setError (v : string) (s : State) : State :=
  {| uploadingFiles := uploadingFiles s; isProcessing := isProcessing s;
     images := images s; isDeleting := isDeleting s; password := password s;
     isAuthenticated := isAuthenticated s; error := v;
     clearQueueTimeout := clearQueueTimeout s; adminAuth := adminAuth s |}.

Definition setClearQueueTimeout (v : option Z) (s : State) : State :=
  {| uploadingFiles := uploadingFiles s; isProcessing := isProcessing s;
     images := images s; isDeleting := isDeleting s; password := password s;
     isAuthenticated := isAuthenticated s; error := error s;
     clearQueueTimeout := v; adminAuth := adminAuth s |}.

(** [localStorage.setItem('adminAuth', ...)] and
    [localStorage.removeItem('adminAuth')] *)
Definition setAdminAuth (v : option AuthData) (s : State) : State :=
  {| uploadingFiles := uploadingFiles s; isProcessing := isProcessing s;
     images := images s; isDeleting := isDeleting s; password := password s;
     isAuthenticated := isAuthenticated s; error := error s;
     clearQueueTimeout := clearQueueTimeout s; adminAuth := v |}.

(** *** Authentication *)

Definition thirtyMinutes : Z := 30 * 60 * 1000.

(** [checkAuth]; [now] is the [Date.now()] of the test and [refreshed]
    the [Date.now()] that is stored. An empty item is not an object
    with a timestamp and is [Unreadable] here. *)
Definition checkAuth (now refreshed : Z) (s : State) : State :=
  match adminAuth s with
  | Some (Timestamp timestamp) =>
      if now - timestamp <? thirtyMinutes
      then setAdminAuth (Some (Timestamp refreshed)) (setIsAuthenticated true s)
      else setIsAuthenticated false (setAdminAuth None s)
  | _ => setIsAuthenticated false (setAdminAuth None s)
  end.

(** [handleLogin]; [fetchAuth password] is [response.ok] of the POST
    of [{ password }] to [/api/admin-auth], [None] when [fetch]
    throws. *)
Definition handleLogin (fetchAuth : string → option bool) (now : Z) (s : State)
    : State :=
  match fetchAuth (password s) with
  | Some true =>
      setError "" (setAdminAuth (Some (Timestamp now)) (setIsAuthenticated true s))
  | Some false => setError "Invalid password" s
  | None => setError "An error occurred" s
  end.

Definition handleLogout (s : State) : State :=
  setIsAuthenticated false (setAdminAuth None s).

(** [checkAuth] run at mount and then by the interval, one run after
    the other; each run comes with the two times it reads. *)
Definition checkAuth_runs (times : list (Z * Z)) (s : State) : State :=
  foldl (λ s t, checkAuth (fst t) (snd t) s) s times.

(** Every run tests less than thirty minutes after the timestamp stored
    before it, starting from [timestamp]. *)
Fixpoint within_thirtyMinutes (timestamp : Z) (times : list (Z * Z)) : Prop :=
  match times with
  | [] => True
  | t :: times =>
      fst t - timestamp < thirtyMinutes ∧ within_thirtyMinutes (snd t) times
  end.

(** The request of [handleLogin] answered by the handler of
    [pages/api/admin-auth.ts]; a handler that throws is answered 500 by
    the server. *)
Definition fetchAuth (ADMIN_PASSWORD : option string) (password : string)
    : option bool :=
  Some (from_option Api.ok false
          (Api.admin_auth.handler ADMIN_PASSWORD
             {| Api.admin_auth.method := "POST";
                Api.admin_auth.body := Some (Api.admin_auth.Text password) |})).

(** *** Deleting *)

(** [handleDelete]: the new state and the alerts shown.
    [fetchDelete publicId] is [response.ok] of the DELETE request, [None]
    when [fetch] throws. *)
Definition handleDelete
    (fetchDelete : string → option bool) (publicId : string) (s : State)
    : State * list string :=
  if truthy (isDeleting s) then (s, [])
  else
    let s := setIsDeleting (Some publicId) s in
    let '(s, alerts) :=
      match fetchDelete publicId with
      | Some true =>
          (setImages
             (filter (λ img, CloudinaryImage.public_id img ≠ publicId) (images s)) s,
           [])
      | _ => (s, ["Failed to delete image"%string])
      end in
    (setIsDeleting None s, alerts).

(** The request of [handleDelete] answered by the handler of
    [pages/api/delete.ts]: the query string carries [publicId] as the one
    value of [public_id]. *)
Definition fetchDelete {R} (destroy : string → Api.Outcome R) (cookie : option string)
    (publicId : string) : option bool :=
  Some (Api.ok (fst (Api.delete.handler destroy
                       {| Api.delete.method := "DELETE";
                          Api.delete.public_id := Api.delete.Single publicId;
                          Api.delete.cookie := cookie |}))).

(** *** Uploading *)

Definition onDrop (acceptedFiles : list (File * string)) (s : State) : State :=
  setUploadingFiles
    (uploadingFiles s
     ++ ((λ '(file, preview),
           UploadingFile.mk file 0 Status.waiting None (Some preview))
         <$> acceptedFiles)) s.

(** [setUploadingFiles(prev => { const newFiles = [...prev];
    newFiles[i] = f(newFiles[i]); return newFiles })]. The index is one
    of the queue as it was when the button was clicked; the queue is not
    shortened while the handler runs, so the entry is there. *)
Definition setUploadingFile
    (i : nat) (f : UploadingFile.t → UploadingFile.t) (s : State) : State :=
  setUploadingFiles (alter f i (uploadingFiles s)) s.

Section handleUpload.

(** [compressImage(file)] for the file at index [i]; [None] when the
    promise rejects. *)
Variable compressImage : nat → File → option File.

(** The POST of the file at index [i] to [/api/upload] and the reading
    of the answer: the image in the body of an answer that is [ok], or
    the message of the error thrown otherwise. *)
Variable upload : nat → File → Api.Outcome CloudinaryImage.t.

(** One turn of the [for] loop, for index [i]; [entry] is
    [uploadingFiles[i]] of the render in which the button was
    clicked. *)
Definition uploadFile (i : nat) (entry : UploadingFile.t) (s : State) : State :=
  match UploadingFile.status entry with
  | Status.completed => s
  | _ =>
    let s :=
      setUploadingFile i (λ u,
        UploadingFile.mk (UploadingFile.file u) 0 Status.uploading
          (UploadingFile.error u) (UploadingFile.preview u)) s in
    let compressed :=
      if MAX_FILE_SIZE <? size (UploadingFile.file entry)
      then
        match compressImage i (UploadingFile.file entry) with
        | Some fileToUpload =>
            inl (fileToUpload,
                 setUploadingFile i (λ u,
                   UploadingFile.mk fileToUpload 0 Status.uploading
                     (UploadingFile.error u) (UploadingFile.preview u)) s)
        | None =>
            inr (setUploadingFile i (λ u,
                   UploadingFile.mk (UploadingFile.file u) (UploadingFile.progress u)
                     Status.error (Some "Failed to compress image"%string)
                     (UploadingFile.preview u)) s)
        end
      else inl (UploadingFile.file entry, s) in
    match compressed with
    | inr s => s
    | inl (fileToUpload, s) =>
        match upload i fileToUpload with
        | Api.Resolved result =>
            setUploadingFile i (λ u,
              UploadingFile.mk (UploadingFile.file u) 100 Status.completed
                (UploadingFile.error u) (UploadingFile.preview u))
              (setImages (images s ++ [result]) s)
        | Api.Thrown message =>
            setUploadingFile i (λ u,
              UploadingFile.mk (UploadingFile.file u) (UploadingFile.progress u)
                Status.error
                (Some (match message with
                       | Some m => if String.eqb m "" then "Upload failed"%string else m
                       | None => "Upload failed"%string
                       end))
                (UploadingFile.preview u)) s
        end
    end
  end.

(** [for (let i = ...; i < uploadingFiles.length; i++)], entered at
    [i] with the entries from [i] on. *)
Fixpoint upload_loop (i : nat) (entries : list UploadingFile.t) (s : State) : State :=
  match entries with
  | [] => s
  | entry :: entries => upload_loop (S i) entries (uploadFile i entry s)
  end.

(** [file.status === 'completed' || file.status === 'error'] *)
Definition settled (file : UploadingFile.t) : bool :=
  match UploadingFile.status file with
  | Status.completed | Status.error => true
  | _ => false
  end.

(** [handleUpload], with no other event between its steps; [now] is
    the time at which the loop is over. The [uploadingFiles] the handler
    reads are those of the render in which the button was clicked, also
    after the loop. *)
Definition handleUpload (now : Z) (s : State) : State :=
  if isProcessing s then s
  else
    let uploadingFiles := uploadingFiles s in
    let s := setIsProcessing true s in
    let s := upload_loop 0 uploadingFiles s in
    let allCompleted := forallb settled uploadingFiles in
    let s :=
      if allCompleted then setClearQueueTimeout (Some (now + 20000)) s else s in
    setIsProcessing false s.

End handleUpload.

(** How a run of [handleUpload] leaves an entry of the queue: as it
    was if it was completed, and completed or in error otherwise. *)
Definition handled (entry entry' : UploadingFile.t) : Prop :=
  (UploadingFile.status entry = Status.completed → entry' = entry)
  ∧ (UploadingFile.status entry ≠ Status.completed → settled entry' = true).

(** The number of completed entries of a queue. *)
Definition completed_count (l : list UploadingFile.t) : nat :=
  length (filter (λ u, UploadingFile.status u = Status.completed) l).

(** [s'] differs from [s] in the queue and in the list of images at
    most. *)
Definition same_cells (s s' : State) : Prop :=
  s' = setImages (images s') (setUploadingFiles (uploadingFiles s') s).

End Admin.

(** ** Sample data for the admin page *)

(** The answer to a login with the configured password [secret]. *)
Definition authenticated_secret : Api.Response Empty_set :=
  {| Api.status := 200;
     Api.Set_Cookie :=
       Some "admin-auth=secret; Path=/; HttpOnly; SameSite=Strict; Max-Age=86400"%string;
     Api.json := Api.Message "Authenticated" |}.

(** The admin page just after a login at time 0. *)
Definition logged_in_at_0 : Admin.State :=
  {| Admin.uploadingFiles := []; Admin.isProcessing := false; Admin.images := [];
     Admin.isDeleting := None; Admin.password := "secret";
     Admin.isAuthenticated := true; Admin.error := "";
     Admin.clearQueueTimeout := None;
     Admin.adminAuth := Some (Admin.Timestamp 0) |}.

(** The admin page after one file is dropped on it. *)
Definition one_waiting : Admin.State :=
  Admin.onDrop [({| Admin.name := "a.jpg"; Admin.size := 1024 |}, "blob:a"%string)]
    logged_in_at_0.

(** No file needs compressing, and every upload is answered. *)
Definition compress_none (i : nat) (file : Admin.File) : option Admin.File :=
  Some file.

Definition upload_answered (i : nat) (file : Admin.File)
    : Api.Outcome Admin.CloudinaryImage.t :=
  Api.Resolved (Admin.CloudinaryImage.mk (Admin.name file) "jpg" 1500 1000).

(** * Properties *)

(** ** The shuffle is a permutation *)

Section shuffle_facts.
Context {T : Type}.
Implicit Types (l : list T) (i j : nat).

Lemma swap_length l i j : length (swap l i j) = length l.
Proof.
  unfold swap. destruct (l !! i), (l !! j); trivial.
  by rewrite !length_insert.
Qed.

Lemma swap_Permutation l i j : swap l i j ≡ₚ l.
Proof.
  unfold swap.
  destruct (l !! i) as [x|] eqn:Hi; [|done].
  destruct (l !! j) as [y|] eqn:Hj; [|done].
  apply Permutation_inj. split; [by rewrite !length_insert|].
  pose proof (lookup_lt_Some _ _ _ Hi) as Hli.
  pose proof (lookup_lt_Some _ _ _ Hj) as Hlj.
  exists (λ k, if decide (k = j) then i else if decide (k = i) then j else k).
  split.
  - intros a b Hab. repeat case_decide; congruence.
  - intros k. destruct (decide (k = j)) as [->|Hkj].
    + rewrite list_lookup_insert_eq by (by rewrite length_insert). done.
    + rewrite list_lookup_insert_ne by done.
      destruct (decide (k = i)) as [->|Hki].
      * by rewrite list_lookup_insert_eq.
      * by rewrite list_lookup_insert_ne.
Qed.

Lemma shuffle_loop_Permutation (random : nat → nat) i l :
  shuffle_loop random i l ≡ₚ l.
Proof.
  revert l. induction i as [|i IH]; intros l; simpl; [done|].
  by rewrite IH, swap_Permutation.
Qed.

Lemma shuffleArray_Permutation (random : nat → nat) l :
  shuffleArray random l ≡ₚ l.
Proof. apply shuffle_loop_Permutation. Qed.
End shuffle_facts.

(** ** The collection built at page load *)

Lemma of_nat_seq_seqZ (n : nat) : Z.of_nat <$> seq 0 n = seqZ 0 (Z.of_nat n).
Proof.
  unfold seqZ. rewrite Nat2Z.id. apply list_fmap_ext. intros _ k _. lia.
Qed.

Lemma originalOrder_seq (l : list ImageProps) : originalOrder l = seq 0 (length l).
Proof.
  unfold originalOrder. rewrite (imap_seq_0 l (λ i, i)). apply list_fmap_id.
Qed.

Lemma shuffledOrder_Permutation (random : nat → nat) (l : list ImageProps) :
  shuffledOrder random l ≡ₚ seq 0 (length l).
Proof.
  unfold shuffledOrder. by rewrite shuffleArray_Permutation, originalOrder_seq.
Qed.

Lemma reducedResults_length resources :
  length (reducedResults resources) = length resources.
Proof. apply length_imap. Qed.

Lemma reducedResults_lookup resources (i : nat) img :
  reducedResults resources !! i = Some img →
  id img = Z.of_nat i ∧ navigationId img = Z.of_nat i.
Proof.
  unfold reducedResults. rewrite list_lookup_imap.
  destruct (resources !! i); intros [= <-]; done.
Qed.

Lemma reducedResults_match_positions resources :
  ids_match_positions (reducedResults resources).
Proof. intros i img H. by apply reducedResults_lookup in H as [? _]. Qed.

(** Picking records by position, for positions inside the array: the
    [map] of [randomizedResults] succeeds and gives each record the
    position it was picked from, both as [id] and as [navigationId]. *)
Lemma pick_records resources (order : list nat) :
  Forall (λ k, (k < length resources)%nat) order →
  ∃ images,
    mapM (λ newIndex,
      r ← reducedResults resources !! newIndex;
      Some {| id := id r; height := height r; width := width r;
              public_id := public_id r; format := format r;
              blurDataUrl := blurDataUrl r;
              navigationId := Z.of_nat newIndex |}) order = Some images
    ∧ id <$> images = Z.of_nat <$> order
    ∧ navigationId <$> images = Z.of_nat <$> order.
Proof.
  induction 1 as [|k order Hk _ (images & Himages & Hid & Hnav)].
  - by exists [].
  - destruct (lookup_lt_is_Some_2 (reducedResults resources) k) as [r Hr];
      [by rewrite reducedResults_length|].
    pose proof (reducedResults_lookup _ _ _ Hr) as [Hrid _].
    eexists (_ :: images). cbn. rewrite Hr. cbn.
    rewrite Himages. cbn. split; [reflexivity|]. cbn.
    by rewrite Hrid, Hid, Hnav.
Qed.

Lemma randomizedResults_order (random : nat → nat) resources :
  ∃ images,
    randomizedResults random (reducedResults resources) = Some images
    ∧ id <$> images = Z.of_nat <$> shuffledOrder random (reducedResults resources)
    ∧ navigationId <$> images
      = Z.of_nat <$> shuffledOrder random (reducedResults resources).
Proof.
  apply pick_records.
  apply Forall_forall. intros k Hk.
  rewrite shuffledOrder_Permutation, reducedResults_length in Hk.
  apply elem_of_seq in Hk. lia.
Qed.

Lemma zip_withBlurDataUrl_fmap {B} (g : ImageProps → B) images urls :
  (∀ image url, g (withBlurDataUrl image url) = g image) →
  length images = length urls →
  g <$> zip_with withBlurDataUrl images urls = g <$> images.
Proof.
  intros Hg. revert urls.
  induction images as [|image images IH]; intros [|url urls] Hlen;
    simplify_eq/=; [done|].
  by rewrite Hg, IH.
Qed.

(** Whatever the draws and whatever fails, the gallery handed to the page
    lists its records in some order [order] of the positions [0..N-1],
    and each record has that position as [id] and as [navigationId]. *)
Lemma getStaticProps_order random getBase64ImageUrl results :
  let images := getStaticProps random getBase64ImageUrl results in
  ∃ order : list nat,
    order ≡ₚ seq 0 (length images)
    ∧ id <$> images = Z.of_nat <$> order
    ∧ navigationId <$> images = Z.of_nat <$> order.
Proof.
  unfold getStaticProps, buildImages.
  destruct results as [resources|]; cbn; [|by exists []].
  destruct (randomizedResults_order random resources)
    as (images & -> & Hid & Hnav); cbn.
  destruct (mapM getBase64ImageUrl images) as [urls|] eqn:Hurls; cbn;
    [|by exists []].
  apply length_mapM in Hurls.
  exists (shuffledOrder random (reducedResults resources)).
  rewrite !zip_withBlurDataUrl_fmap by done.
  split_and!; [|done..].
  rewrite length_zip_with_l_eq by done.
  rewrite shuffledOrder_Permutation.
  apply (f_equal length) in Hid. rewrite !length_fmap in Hid.
  rewrite Hid. by rewrite shuffledOrder_Permutation at 1; rewrite length_seq.
Qed.

(** ** [Array.prototype.find] *)

Section find_facts.
Context {A : Type}.
Implicit Types (f : A → bool) (l : list A).

(** [find] answers the first element, in array order, that passes. *)
Lemma find_head_filter f l : List.find f l = head (filter (λ x, f x = true) l).
Proof.
  induction l as [|a l IH]; [done|].
  rewrite filter_cons. cbn [List.find].
  destruct (f a) eqn:Ha; case_decide; done.
Qed.

Lemma find_Some_elem_of f l x : List.find f l = Some x → x ∈ l ∧ f x = true.
Proof.
  intros H. apply find_some in H as [H ?]. by apply list_elem_of_In in H.
Qed.

(** When a key identifies the records, looking a record's key up gives
    that record back. *)
Lemma find_unique (key : A → Z) l x :
  NoDup (key <$> l) → x ∈ l → List.find (λ y, key y =? key x) l = Some x.
Proof.
  induction l as [|a l IH]; intros Hnd Hx; [by apply elem_of_nil in Hx|].
  rewrite fmap_cons in Hnd. apply NoDup_cons in Hnd as [Ha Hnd]. cbn.
  destruct (key a =? key x) eqn:Heq.
  - apply Z.eqb_eq in Heq. apply elem_of_cons in Hx as [->|Hx]; [done|].
    exfalso. apply Ha. rewrite Heq. by apply list_elem_of_fmap_2.
  - apply elem_of_cons in Hx as [->|Hx]; [by rewrite Z.eqb_refl in Heq|].
    by apply IH.
Qed.

Lemma find_unique_eq (key : A → Z) l x k :
  NoDup (key <$> l) → x ∈ l → key x = k → List.find (λ y, key y =? k) l = Some x.
Proof. intros ?? <-. by apply find_unique. Qed.
End find_facts.

(** ** Swipe navigation *)

(** Both handlers pass the id of the neighbour they find to
    [changePhotoId], and call nothing when there is none. *)
Lemma handlers_neighbor images index g :
  handlers images index g =
    match images ≫= λ photos, neighborByNavigationOrder photos index (swipe_step g) with
    | Some neighbor => [changePhotoId (id neighbor)]
    | None => []
    end.
Proof.
  destruct images as [photos|]; [|by destruct g].
  destruct g; cbn; unfold onSwipedLeft, onSwipedRight, neighborByNavigationOrder; cbn;
    destruct (List.find (λ img, id img =? index) photos); reflexivity.
Qed.

Lemma onSwipedLeft_neighbor photos index :
  onSwipedLeft (Some photos) index =
    match neighborByNavigationOrder photos index 1 with
    | Some nextImage => [changePhotoId (id nextImage)]
    | None => []
    end.
Proof. apply (handlers_neighbor (Some photos) index SwipedLeft). Qed.

Lemma onSwipedRight_neighbor photos index :
  onSwipedRight (Some photos) index =
    match neighborByNavigationOrder photos index (-1) with
    | Some prevImage => [changePhotoId (id prevImage)]
    | None => []
    end.
Proof. apply (handlers_neighbor (Some photos) index SwipedRight). Qed.

Lemma neighbor_unique photos A B step :
  NoDup (id <$> photos) → NoDup (navigationId <$> photos) →
  A ∈ photos → B ∈ photos → navigationId B = navigationId A + step →
  neighborByNavigationOrder photos (id A) step = Some B.
Proof.
  intros Hid Hnav HA HB Hstep. unfold neighborByNavigationOrder.
  rewrite (find_unique id) by done. cbn.
  by apply find_unique_eq.
Qed.

Lemma neighbor_Some photos currentId step B :
  neighborByNavigationOrder photos currentId step = Some B →
  ∃ A, A ∈ photos ∧ id A = currentId ∧ B ∈ photos
       ∧ navigationId B = navigationId A + step.
Proof.
  unfold neighborByNavigationOrder.
  destruct (List.find _ photos) as [A|] eqn:HA; [|done]. cbn. intros HB.
  apply find_Some_elem_of in HA as [HA HAid], HB as [HB HBnav].
  exists A. split_and!; [done|lia|done|lia].
Qed.

Lemma dense_ids_unique photos : dense_ids photos → unique_ids photos.
Proof. unfold dense_ids, unique_ids. intros H. rewrite H. apply NoDup_seqZ. Qed.

Lemma navigation_bijection_NoDup photos :
  navigation_bijection photos → NoDup (navigationId <$> photos).
Proof. unfold navigation_bijection. intros H. rewrite H. apply NoDup_seqZ. Qed.

Lemma navigation_bijection_range photos A :
  navigation_bijection photos → A ∈ photos →
  0 ≤ navigationId A < Z.of_nat (length photos).
Proof.
  intros Hnav HA. apply (list_elem_of_fmap_2 navigationId) in HA.
  unfold navigation_bijection in Hnav. rewrite Hnav in HA. apply elem_of_seqZ in HA. lia.
Qed.

Lemma navigation_bijection_elem photos n :
  navigation_bijection photos → 0 ≤ n < Z.of_nat (length photos) →
  ∃ B, B ∈ photos ∧ navigationId B = n.
Proof.
  intros Hnav Hn. unfold navigation_bijection in Hnav.
  assert (n ∈ navigationId <$> photos) as HB
    by (rewrite Hnav; apply elem_of_seqZ; lia).
  apply list_elem_of_fmap in HB as (B & -> & HB). by exists B.
Qed.

Lemma unique_ids_inj photos A B :
  unique_ids photos → A ∈ photos → B ∈ photos → id A = id B → A = B.
Proof.
  intros Hid HA HB Heq.
  pose proof (find_unique id photos A Hid HA) as HfA.
  pose proof (find_unique id photos B Hid HB) as HfB.
  rewrite Heq in HfA. congruence.
Qed.

(** When ids are unique and navigationIds are a permutation of 0..N-1, a
    record has a neighbour at [step] as soon as its navigationId plus
    [step] is in range, and stepping back from that neighbour returns to
    the record. *)
Lemma neighbor_round_trip photos A step :
  unique_ids photos → navigation_bijection photos → A ∈ photos →
  0 ≤ navigationId A + step < Z.of_nat (length photos) →
  ∃ B, neighborByNavigationOrder photos (id A) step = Some B
       ∧ neighborByNavigationOrder photos (id B) (- step) = Some A.
Proof.
  intros Hid Hnav HA Hrange.
  destruct (navigation_bijection_elem photos _ Hnav Hrange) as (B & HB & HBnav).
  apply navigation_bijection_NoDup in Hnav.
  exists B. split; apply neighbor_unique; try done. lia.
Qed.

(** C7. In a collection whose records have distinct ids and whose
    navigationIds are a permutation of 0..N-1, for a record A of the
    collection: whenever B is the +1 neighbour of A, the -1 neighbour of B
    is A. If A is not last in navigation order, the +1 neighbour B of A
    exists (and its -1 neighbour is A); if A is not first, the -1
    neighbour B of A exists and the +1 neighbour of B is A. The swipe
    handlers follow: swiping left on A asks for B, and swiping right on B
    asks for A. *)
Theorem neighborByNavigationOrder_inverse photos A :
  unique_ids photos → navigation_bijection photos → A ∈ photos →
  (∀ B, neighborByNavigationOrder photos (id A) 1 = Some B →
        neighborByNavigationOrder photos (id B) (-1) = Some A)
  ∧ (navigationId A < Z.of_nat (length photos) - 1 →
     ∃ B, neighborByNavigationOrder photos (id A) 1 = Some B
          ∧ neighborByNavigationOrder photos (id B) (-1) = Some A
          ∧ onSwipedLeft (Some photos) (id A) = [changePhotoId (id B)]
          ∧ onSwipedRight (Some photos) (id B) = [changePhotoId (id A)])
  ∧ (0 < navigationId A →
     ∃ B, neighborByNavigationOrder photos (id A) (-1) = Some B
          ∧ neighborByNavigationOrder photos (id B) 1 = Some A
          ∧ onSwipedRight (Some photos) (id A) = [changePhotoId (id B)]
          ∧ onSwipedLeft (Some photos) (id B) = [changePhotoId (id A)]).
Proof.
  intros Hid Hnav HA.
  pose proof (navigation_bijection_range photos A Hnav HA) as Hrange.
  split; [|split; intros Hextreme].
  - intros B HB. apply neighbor_Some in HB as (A' & HA' & HA'id & HB & HBnav).
    rewrite (unique_ids_inj photos A' A) in HBnav by done.
    apply neighbor_unique;
      [done|by apply navigation_bijection_NoDup|done|done|lia].
  - destruct (neighbor_round_trip photos A 1) as (B & HAB & HBA);
      [done|done|done|lia|].
    change (Z.opp 1) with (Z.neg 1) in HBA.
    exists B. rewrite onSwipedLeft_neighbor, onSwipedRight_neighbor.
    by rewrite HAB, HBA.
  - destruct (neighbor_round_trip photos A (-1)) as (B & HAB & HBA);
      [done|done|done|lia|].
    change (Z.opp (Z.neg 1)) with (Z.pos 1) in HBA.
    exists B. rewrite onSwipedLeft_neighbor, onSwipedRight_neighbor.
    by rewrite HAB, HBA.
Qed.

Lemma neighborByNavigationOrder_inverse_witness :
  (∀ B, neighborByNavigationOrder photos_shuffled 2 1 = Some B →
        neighborByNavigationOrder photos_shuffled (id B) (-1) = Some (photo 2 1))
  ∧ (∃ B, neighborByNavigationOrder photos_shuffled 2 1 = Some B
        ∧ neighborByNavigationOrder photos_shuffled (id B) (-1) = Some (photo 2 1)
        ∧ onSwipedLeft (Some photos_shuffled) 2 = [changePhotoId (id B)]
        ∧ onSwipedRight (Some photos_shuffled) (id B) = [changePhotoId 2])
  ∧ (∃ B, neighborByNavigationOrder photos_shuffled 2 (-1) = Some B
        ∧ neighborByNavigationOrder photos_shuffled (id B) 1 = Some (photo 2 1)
        ∧ onSwipedRight (Some photos_shuffled) 2 = [changePhotoId (id B)]
        ∧ onSwipedLeft (Some photos_shuffled) (id B) = [changePhotoId 2]).
Proof.
  destruct (neighborByNavigationOrder_inverse photos_shuffled (photo 2 1))
    as (Hinverse & Hnext & Hprev).
  - unfold unique_ids. cbn. apply (NoDup_seqZ 0 3).
  - unfold navigation_bijection. cbn.
    change (seqZ 0 3) with [0; 1; 2].
    etrans; [apply Permutation_swap|]. apply perm_skip, Permutation_swap.
  - apply list_elem_of_lookup. by exists 2%nat.
  - split_and!; [exact Hinverse | apply Hnext; cbn; lia | apply Hprev; cbn; lia].
Defined.

(** C9, as the code has it. Whether or not navigationIds are shared, the
    lookup raises no error: it answers the first record, in array order,
    among those whose navigationId is the current record's plus [step]
    (the current record being the first with the requested id), and the
    handlers pass that record's id to [changePhotoId]. *)
Theorem neighborByNavigationOrder_first_match photos currentId step :
  neighborByNavigationOrder photos currentId step =
    (currentImage ← head (filter (λ img, id img = currentId) photos);
     head (filter (λ img, navigationId img = navigationId currentImage + step) photos))
  ∧ handlers (Some photos) currentId SwipedLeft =
      match neighborByNavigationOrder photos currentId 1 with
      | Some nextImage => [changePhotoId (id nextImage)]
      | None => []
      end
  ∧ handlers (Some photos) currentId SwipedRight =
      match neighborByNavigationOrder photos currentId (-1) with
      | Some prevImage => [changePhotoId (id prevImage)]
      | None => []
      end.
Proof.
  split; [|split; [apply onSwipedLeft_neighbor | apply onSwipedRight_neighbor]].
  unfold neighborByNavigationOrder. rewrite find_head_filter.
  erewrite (list_filter_iff _ (λ img, id img = currentId));
    [|intros img; apply Z.eqb_eq].
  destruct (head _) as [currentImage|]; [|done]. cbn.
  rewrite find_head_filter. f_equal.
  apply list_filter_iff. intros img. apply Z.eqb_eq.
Qed.

(** C9, as stated, fails: with two records sharing navigationId 1, the
    lookup from the record before them answers the first of the two and
    the swipe navigates to it. *)
Lemma neighborByNavigationOrder_tie_picks_first :
  share_navigationId photos_tied
  ∧ neighborByNavigationOrder photos_tied 0 1 = Some (photo 1 1)
  ∧ onSwipedLeft (Some photos_tied) 0 = [changePhotoId 1].
Proof.
  split; [|done].
  exists 1%nat, 2%nat, (photo 1 1), (photo 2 1). done.
Qed.

(** ** One call per handler run *)

(** C4, as the code has it. A swipe handler that finds its neighbour
    calls [changePhotoId] once, with the neighbour's id, and calls nothing
    otherwise; nothing is suppressed: a gesture delivered [n] times while
    one render is on screen makes [n] times the calls of one delivery. *)
Theorem swipe_calls_once_per_delivery images index g (n : nat) :
  handlers images index g =
    match images ≫= λ photos, neighborByNavigationOrder photos index (swipe_step g) with
    | Some neighbor => [changePhotoId (id neighbor)]
    | None => []
    end
  ∧ (length (handlers images index g) ≤ 1)%nat
  ∧ fire images index (replicate n g) = mjoin (replicate n (handlers images index g))
  ∧ length (fire images index (replicate n g))
    = (n * length (handlers images index g))%nat.
Proof.
  assert (fire images index (replicate n g)
          = mjoin (replicate n (handlers images index g))) as Hfire.
  { unfold fire. induction n as [|n IH]; [done|]. cbn. by rewrite IH. }
  split_and!; [apply handlers_neighbor| |done|].
  - rewrite handlers_neighbor. destruct (_ ≫= _); cbn; lia.
  - rewrite Hfire. clear Hfire. induction n as [|n IH]; [done|].
    change (length (handlers images index g
                    ++ mjoin (replicate n (handlers images index g)))
            = (S n * length (handlers images index g))%nat).
    rewrite length_app, IH. lia.
Qed.

(** C4, as stated, fails: the same left swipe delivered twice within one
    render calls [changePhotoId] twice with the same id. *)
Lemma double_swipe_calls_twice :
  fire (Some photos_shuffled) 1 [SwipedLeft; SwipedLeft]
    = [changePhotoId 2; changePhotoId 2]
  ∧ length (fire (Some photos_shuffled) 1 [SwipedLeft; SwipedLeft]) ≠ 1%nat.
Proof. split; [reflexivity|]. intros H. vm_compute in H. discriminate H. Qed.

(** ** What a render shows *)

Lemma render_Some props s v :
  SharedModal props s = Some v →
  ∃ cur,
    currentImage props = Some cur
    ∧ (overlay v = None ↔ loaded s = false)
    ∧ (bottomNav v = None ↔ navigation props = false)
    ∧ (navigation props = true →
       ∃ photos, images props = Some photos
         ∧ bottomNav v = Some ((λ img,
             {| key := id img; selected := id img =? index props;
                onClick := [changePhotoId (id img)] |})
             <$> filter (λ img, id img ∈ range (index props - 15) (index props + 15))
                   photos))
    ∧ (∀ o, overlay v = Some o →
         closeButton o = [closeModal]
         ∧ (navigation props = false →
            prevButton o = None ∧ nextButton o = None ∧ openOriginalLink o = None)
         ∧ (navigation props = true →
            ∃ photos, images props = Some photos
              ∧ prevButton o =
                  (if 0 <? index props
                   then Some [changePhotoId (index props - 1)] else None)
              ∧ nextButton o =
                  (if index props + 1 <? Z.of_nat (length photos)
                   then Some [changePhotoId (index props + 1)] else None)
              ∧ openOriginalLink o = Some (public_id cur, format cur))).
Proof.
  unfold SharedModal, filteredImages.
  destruct (currentImage props) as [cur|]; [|done]. cbn.
  destruct (loaded s), (navigation props), (images props) as [photos|];
    cbn; intros [= <-]; exists cur; cbn;
    (split; [done|]); (split; [done|]); (split; [done|]);
    (split; [try done; intros _; by exists photos|]);
    try done; intros o [= <-]; cbn; (split; [done|]);
    (split; [done|]); try done; intros _; by exists photos.
Qed.

(** The record shown is one of the collection and has the requested id. *)
Lemma currentImage_Some photos props cur :
  images props = Some photos → currentImage props = Some cur →
  cur ∈ photos ∧ id cur = index props.
Proof.
  unfold currentImage. intros ->. intros H.
  apply find_Some_elem_of in H as [? ?]. split; [done|lia].
Qed.

(** ** Swiping in a collection where navigationId is id *)

Lemma dense_ids_range photos A :
  dense_ids photos → A ∈ photos → 0 ≤ id A < Z.of_nat (length photos).
Proof.
  intros Hid HA. apply (list_elem_of_fmap_2 id) in HA.
  unfold dense_ids in Hid. rewrite Hid in HA. apply elem_of_seqZ in HA. lia.
Qed.

Lemma dense_ids_elem photos n :
  dense_ids photos → 0 ≤ n < Z.of_nat (length photos) →
  ∃ A, A ∈ photos ∧ id A = n.
Proof.
  intros Hid Hn. unfold dense_ids in Hid.
  assert (n ∈ id <$> photos) as HA by (rewrite Hid; apply elem_of_seqZ; lia).
  apply list_elem_of_fmap in HA as (A & -> & HA). by exists A.
Qed.

Lemma swipe_by_id photos index g :
  dense_ids photos → navigation_bijection photos →
  (∀ img, img ∈ photos → navigationId img = id img) →
  0 ≤ index < Z.of_nat (length photos) →
  handlers (Some photos) index g
  = if decide (0 ≤ index + swipe_step g < Z.of_nat (length photos))
    then [changePhotoId (index + swipe_step g)]
    else [].
Proof.
  intros Hid Hnav Heq Hindex.
  rewrite handlers_neighbor. cbn.
  destruct (dense_ids_elem photos index Hid Hindex) as (A & HA & HAid).
  case_decide as Hstep.
  - destruct (navigation_bijection_elem photos (index + swipe_step g) Hnav Hstep)
      as (B & HB & HBnav).
    rewrite <- HAid.
    rewrite (neighbor_unique photos A B);
      [|by apply dense_ids_unique|by apply navigation_bijection_NoDup|done|done|].
    + by rewrite <- (Heq B HB), HBnav, HAid.
    + rewrite HBnav, (Heq A HA). lia.
  - destruct (neighborByNavigationOrder _ _ _) as [B|] eqn:HB; [|done].
    exfalso. apply neighbor_Some in HB as (A' & HA' & HA'id & HB & HBnav).
    pose proof (navigation_bijection_range photos B Hnav HB).
    rewrite (Heq A' HA') in HBnav. lia.
Qed.

(** ** The collection handed to the page *)

Lemma getStaticProps_invariants random getBase64ImageUrl results :
  let images := getStaticProps random getBase64ImageUrl results in
  dense_ids images ∧ navigation_bijection images
  ∧ ∀ img, img ∈ images → navigationId img = id img.
Proof.
  intros images.
  destruct (getStaticProps_order random getBase64ImageUrl results)
    as (order & Horder & Hid & Hnav).
  fold images in Horder, Hid, Hnav.
  unfold dense_ids, navigation_bijection. rewrite Hid, Hnav.
  rewrite <- of_nat_seq_seqZ, Horder. split_and!; [done..|].
  intros img Himg. apply list_elem_of_lookup in Himg as [k Hk].
  assert ((id <$> images) !! k = (navigationId <$> images) !! k) as Heq
    by (by rewrite Hid, Hnav).
  rewrite !list_lookup_fmap, Hk in Heq. by injection Heq.
Qed.

(** C2, as the code has it. Whatever the (admissible) draws of the
    shuffle, the collection handed to the page carries each id of 0..N-1
    once and each navigationId of 0..N-1 once; the ids match the array
    positions in the array built before the shuffle ([reducedResults]),
    not in the shuffled one. *)
Theorem getStaticProps_ids_dense_navigation_bijective
    random getBase64ImageUrl results :
  (∀ i, (random i ≤ i)%nat) →
  dense_ids (getStaticProps random getBase64ImageUrl results)
  ∧ navigation_bijection (getStaticProps random getBase64ImageUrl results)
  ∧ (∀ resources, results = Some resources →
       ids_match_positions (reducedResults resources)
       ∧ navigation_bijection (reducedResults resources)).
Proof.
  intros _.
  destruct (getStaticProps_invariants random getBase64ImageUrl results)
    as (Hid & Hnav & _).
  split_and!; [done..|]. intros resources _. split.
  - apply reducedResults_match_positions.
  - unfold navigation_bijection, reducedResults.
    rewrite fmap_imap, length_imap.
    rewrite (imap_ext _ (λ i _, Z.of_nat i)) by done.
    rewrite (imap_seq_0 resources (λ i, Z.of_nat i)).
    by rewrite of_nat_seq_seqZ.
Qed.

Lemma getStaticProps_ids_dense_navigation_bijective_witness :
  dense_ids (getStaticProps draw_zero blur_stub (Some two_resources))
  ∧ navigation_bijection (getStaticProps draw_zero blur_stub (Some two_resources))
  ∧ (∀ resources, Some two_resources = Some resources →
       ids_match_positions (reducedResults resources)
       ∧ navigation_bijection (reducedResults resources)).
Proof.
  apply (getStaticProps_ids_dense_navigation_bijective
           draw_zero blur_stub (Some two_resources)).
  intros i. unfold draw_zero. lia.
Defined.

(** C2, as stated, fails: with two resources and the draw 0, the shuffle
    exchanges them, and the record at position 0 has id 1. *)
Lemma getStaticProps_ids_not_positions :
  id <$> getStaticProps draw_zero blur_stub (Some two_resources) = [1; 0]
  ∧ (id <$> getStaticProps draw_zero blur_stub (Some two_resources)) !! 0%nat ≠ Some 0
  ∧ ¬ ids_match_positions (getStaticProps draw_zero blur_stub (Some two_resources)).
Proof.
  split_and!; [reflexivity|by vm_compute|].
  intros H. specialize (H 0%nat _ eq_refl). vm_compute in H. discriminate H.
Qed.

(** C10. In every collection built by [getStaticProps], a record's
    navigationId is its id. So for a photo of the collection, a left swipe
    asks for [index + 1] exactly when the next button is there to ask for
    it, and a right swipe asks for [index - 1] exactly when the previous
    button is: in a render that shows both the overlay and the navigation,
    the swipe handlers make the calls of the buttons. *)
Theorem getStaticProps_swipe_agrees_with_buttons
    random getBase64ImageUrl results :
  (∀ i, (random i ≤ i)%nat) →
  let photos := getStaticProps random getBase64ImageUrl results in
  (∀ img, img ∈ photos → navigationId img = id img)
  ∧ (∀ index, 0 ≤ index < Z.of_nat (length photos) →
       onSwipedLeft (Some photos) index =
         (if index + 1 <? Z.of_nat (length photos)
          then [changePhotoId (index + 1)] else [])
       ∧ onSwipedRight (Some photos) index =
         (if 0 <? index then [changePhotoId (index - 1)] else []))
  ∧ (∀ props s v o,
       images props = Some photos → navigation props = true →
       SharedModal props s = Some v → overlay v = Some o →
       onSwipedLeft (Some photos) (index props) = default [] (nextButton o)
       ∧ onSwipedRight (Some photos) (index props) = default [] (prevButton o)).
Proof.
  intros _ photos.
  destruct (getStaticProps_invariants random getBase64ImageUrl results)
    as (Hid & Hnav & Heq).
  fold photos in Hid, Hnav, Heq.
  assert (∀ index, 0 ≤ index < Z.of_nat (length photos) →
       onSwipedLeft (Some photos) index =
         (if index + 1 <? Z.of_nat (length photos)
          then [changePhotoId (index + 1)] else [])
       ∧ onSwipedRight (Some photos) index =
         (if 0 <? index then [changePhotoId (index - 1)] else [])) as Hswipe.
  { intros index Hindex. split.
    - change (onSwipedLeft (Some photos) index)
        with (handlers (Some photos) index SwipedLeft).
      rewrite swipe_by_id by done. cbn.
      case_decide; destruct (Z.ltb_spec (index + 1) (Z.of_nat (length photos)));
        try done; lia.
    - change (onSwipedRight (Some photos) index)
        with (handlers (Some photos) index SwipedRight).
      rewrite swipe_by_id by done. cbn.
      case_decide; destruct (Z.ltb_spec 0 index); try done; lia. }
  split_and!; [done..|].
  intros props s v o Himages Hnavigation Hrender Hoverlay.
  apply render_Some in Hrender as (cur & Hcur & _ & _ & _ & Ho).
  destruct (Ho o Hoverlay) as (_ & _ & Hbuttons).
  destruct (Hbuttons Hnavigation) as (photos' & Hphotos & -> & -> & _).
  rewrite Himages in Hphotos. injection Hphotos as <-.
  destruct (currentImage_Some photos props cur Himages Hcur) as [Hin <-].
  destruct (Hswipe (id cur) (dense_ids_range photos cur Hid Hin)) as [-> ->].
  split.
  - by destruct (id cur + 1 <? _).
  - by destruct (0 <? id cur).
Qed.

Lemma getStaticProps_swipe_agrees_with_buttons_witness :
  (∀ img, img ∈ shuffled_pair → navigationId img = id img)
  ∧ (∀ index, 0 ≤ index < Z.of_nat (length shuffled_pair) →
       onSwipedLeft (Some shuffled_pair) index =
         (if index + 1 <? Z.of_nat (length shuffled_pair)
          then [changePhotoId (index + 1)] else [])
       ∧ onSwipedRight (Some shuffled_pair) index =
         (if 0 <? index then [changePhotoId (index - 1)] else []))
  ∧ (∀ props s v o,
       images props = Some shuffled_pair → navigation props = true →
       SharedModal props s = Some v → overlay v = Some o →
       onSwipedLeft (Some shuffled_pair) (index props) = default [] (nextButton o)
       ∧ onSwipedRight (Some shuffled_pair) (index props) = default [] (prevButton o)).
Proof.
  apply (getStaticProps_swipe_agrees_with_buttons
           draw_zero blur_stub (Some two_resources)).
  intros i. unfold draw_zero. lia.
Defined.

(** ** The loaded flag over time *)

Lemma calculateDimensions_loaded currentImage window s :
  loaded (calculateDimensions currentImage window s) = loaded s.
Proof. unfold calculateDimensions. by destruct (JS.gt _ _). Qed.

Lemma effect_loaded props window s : loaded (effect props window s) = loaded s.
Proof.
  unfold effect. destruct (currentImage props); [|done].
  apply calculateDimensions_loaded.
Qed.

Lemma step_loaded c e :
  loaded (snd (step c e)) = loaded (snd c) || is_Load e.
Proof.
  destruct c as [props s], e; cbn.
  - by rewrite orb_true_r.
  - by rewrite effect_loaded, orb_false_r.
  - by rewrite effect_loaded, orb_false_r.
Qed.

(** C5, as the code has it. The flag is false when the viewer is mounted,
    the main image's [onLoad] sets it, and nothing resets it: after any
    events it is set exactly if it was set before or one of the events was
    a load. A navigation (new props) and a resize leave it as it is. *)
Theorem loaded_never_reset c es :
  loaded (snd (run c es)) = loaded (snd c) || existsb is_Load es
  ∧ (∀ props window, loaded (snd (mount props window)) = false)
  ∧ (∀ props' window,
       loaded (snd (step c (Props props' window))) = loaded (snd c))
  ∧ (∀ window, loaded (snd (step c (Resize window))) = loaded (snd c))
  ∧ loaded (snd (step c Load)) = true.
Proof.
  split_and!.
  - unfold run. revert c. induction es as [|e es IH]; intros c; cbn.
    + by rewrite orb_false_r.
    + by rewrite IH, step_loaded, orb_assoc.
  - intros props window. cbn. by rewrite effect_loaded.
  - intros props' window. by rewrite step_loaded, orb_false_r.
  - intros window. by rewrite step_loaded, orb_false_r.
  - by rewrite step_loaded, orb_true_r.
Qed.

(** C5, as stated, fails: the viewer opens on photo 0, its image loads,
    and a navigation to photo 1 follows; the flag is still set although
    the image of photo 1 has not loaded. *)
Lemma loaded_carries_over_navigation :
  index (fst (run (mount (viewer_at 0) window_1400_900)
                  [Load; Props (viewer_at 1) window_1400_900])) = 1
  ∧ loaded (snd (run (mount (viewer_at 0) window_1400_900)
                     [Load; Props (viewer_at 1) window_1400_900])) = true
  ∧ loaded (snd (run (mount (viewer_at 0) window_1400_900)
                     [Load; Props (viewer_at 1) window_1400_900])) ≠ false.
Proof.
  assert (loaded (snd (run (mount (viewer_at 0) window_1400_900)
                     [Load; Props (viewer_at 1) window_1400_900])) = true) as H
    by (by vm_compute).
  split_and!; [reflexivity|done|]. by rewrite H.
Qed.

(** ** What is gated by the loaded flag *)

(** C6, as the code has it. In every render, the overlay (previous and
    next buttons, close button, link to the original) is there exactly
    when the flag is set; the bottom filmstrip is there exactly when
    [navigation] is set, whatever the flag. *)
Theorem overlay_gated_by_loaded_filmstrip_by_navigation props s v :
  SharedModal props s = Some v →
  (is_Some (overlay v) ↔ loaded s = true)
  ∧ (loaded s = false → overlay v = None)
  ∧ (is_Some (bottomNav v) ↔ navigation props = true).
Proof.
  intros Hrender.
  apply render_Some in Hrender as (cur & _ & Hoverlay & HbottomNav & _).
  rewrite <- !not_eq_None_Some, Hoverlay, HbottomNav.
  split_and!; [|tauto|]; by destruct (loaded s), (navigation props).
Qed.

Lemma overlay_gated_by_loaded_filmstrip_by_navigation_witness :
  ∃ v, SharedModal (viewer_at 1) (setLoaded true initialState) = Some v
    ∧ (is_Some (overlay v) ↔ loaded (setLoaded true initialState) = true)
    ∧ (loaded (setLoaded true initialState) = false → overlay v = None)
    ∧ (is_Some (bottomNav v) ↔ navigation (viewer_at 1) = true).
Proof.
  eexists. split; [reflexivity|].
  apply (overlay_gated_by_loaded_filmstrip_by_navigation
           (viewer_at 1) (setLoaded true initialState)).
  reflexivity.
Defined.

(** C6, as stated, fails: before the image has loaded, with [navigation]
    set, the render has no overlay but it has the filmstrip, here with the
    thumbnails of the three photos. *)
Lemma filmstrip_rendered_before_load :
  loaded initialState = false
  ∧ ∃ v, SharedModal (viewer_at 1) initialState = Some v
      ∧ overlay v = None
      ∧ key <$> default [] (bottomNav v) = [0; 1; 2]
      ∧ is_Some (bottomNav v).
Proof.
  split; [reflexivity|]. eexists. split; [reflexivity|].
  split_and!; [reflexivity|reflexivity|by eexists].
Qed.

(** ** The filmstrip window *)

Lemma range_elem_of start end_ x : x ∈ range start end_ ↔ start ≤ x ≤ end_.
Proof. unfold range. rewrite elem_of_seqZ. lia. Qed.

Lemma length_filter_fmap {A B} (f : A → B) (P : B → Prop)
    `{∀ y, Decision (P y)} (l : list A) :
  length (filter (λ x, P (f x)) l) = length (filter P (f <$> l)).
Proof.
  induction l as [|x l IH]; [done|].
  rewrite fmap_cons, !filter_cons. case_decide; cbn; by rewrite IH.
Qed.

(** The integers of [0..N-1] inside [lo, hi] are those from [max 0 lo]
    to [min (N-1) hi]. *)
Lemma length_filter_interval (N lo hi : Z) :
  Z.of_nat (length (filter (λ x, lo ≤ x ≤ hi) (seqZ 0 N)))
  = Z.max 0 (Z.min (N - 1) hi - Z.max 0 lo + 1).
Proof.
  assert (filter (λ x, lo ≤ x ≤ hi) (seqZ 0 N)
          ≡ₚ seqZ (Z.max 0 lo) (Z.min (N - 1) hi - Z.max 0 lo + 1)) as ->.
  { apply NoDup_Permutation.
    - apply NoDup_filter, NoDup_seqZ.
    - apply NoDup_seqZ.
    - intros x. rewrite list_elem_of_filter, !elem_of_seqZ. lia. }
  rewrite length_seqZ. lia.
Qed.

Lemma filteredImages_length photos index :
  dense_ids photos →
  Z.of_nat (length (filter (λ img, index - 15 ≤ id img ≤ index + 15) photos))
  = Z.max 0 (Z.min (Z.of_nat (length photos) - 1) (index + 15)
             - Z.max 0 (index - 15) + 1).
Proof.
  intros Hid. unfold dense_ids in Hid.
  pose proof (length_filter_fmap id (λ x, index - 15 ≤ x ≤ index + 15) photos)
    as Hlen.
  cbn beta in Hlen. rewrite Hlen, Hid. apply length_filter_interval.
Qed.

(** C3. For a collection of N records with dense ids, the filmstrip
    window around [index] is made of the records whose id is in
    [index - 15, index + 15], both ends included, in the order of the
    collection. It holds 31 = min(31, N) records when the interval lies
    inside 0..N-1, all N records when the interval covers 0..N-1, fewer
    than 31 when [index] is a photo less than 15 away from id 0 or id N-1,
    and never more than min(31, N); no record outside the interval is
    taken from the other end. *)
Theorem filteredImages_window photos index :
  dense_ids photos →
  ∃ window,
    filteredImages (Some photos) index = Some window
    ∧ window = filter (λ img, index - 15 ≤ id img ≤ index + 15) photos
    ∧ window `sublist_of` photos
    ∧ (∀ img, img ∈ window ↔ img ∈ photos ∧ index - 15 ≤ id img ≤ index + 15)
    ∧ Z.of_nat (length window)
      = Z.max 0 (Z.min (Z.of_nat (length photos) - 1) (index + 15)
                 - Z.max 0 (index - 15) + 1)
    ∧ (15 ≤ index ≤ Z.of_nat (length photos) - 1 - 15 →
       Z.of_nat (length window) = 2 * 15 + 1
       ∧ Z.of_nat (length window) = Z.min (2 * 15 + 1) (Z.of_nat (length photos)))
    ∧ (index - 15 ≤ 0 → Z.of_nat (length photos) - 1 ≤ index + 15 →
       Z.of_nat (length window) = Z.min (2 * 15 + 1) (Z.of_nat (length photos)))
    ∧ (0 ≤ index < Z.of_nat (length photos) →
       index < 15 ∨ Z.of_nat (length photos) - 1 - 15 < index →
       Z.of_nat (length window) < 2 * 15 + 1)
    ∧ Z.of_nat (length window) ≤ Z.min (2 * 15 + 1) (Z.of_nat (length photos)).
Proof.
  intros Hid.
  pose proof (filteredImages_length photos index Hid) as Hlen.
  exists (filter (λ img, index - 15 ≤ id img ≤ index + 15) photos).
  split_and!; try lia.
  - unfold filteredImages. cbn. f_equal.
    apply list_filter_iff. intros img. apply range_elem_of.
  - done.
  - apply sublist_filter.
  - intros img. rewrite list_elem_of_filter. tauto.
Qed.

Lemma filteredImages_window_witness :
  ∃ window,
    filteredImages (Some photos_40) 20 = Some window
    ∧ window = filter (λ img, 20 - 15 ≤ id img ≤ 20 + 15) photos_40
    ∧ window `sublist_of` photos_40
    ∧ (∀ img, img ∈ window ↔ img ∈ photos_40 ∧ 20 - 15 ≤ id img ≤ 20 + 15)
    ∧ Z.of_nat (length window)
      = Z.max 0 (Z.min (Z.of_nat (length photos_40) - 1) (20 + 15)
                 - Z.max 0 (20 - 15) + 1)
    ∧ (15 ≤ 20 ≤ Z.of_nat (length photos_40) - 1 - 15 →
       Z.of_nat (length window) = 2 * 15 + 1
       ∧ Z.of_nat (length window) = Z.min (2 * 15 + 1) (Z.of_nat (length photos_40)))
    ∧ (20 - 15 ≤ 0 → Z.of_nat (length photos_40) - 1 ≤ 20 + 15 →
       Z.of_nat (length window) = Z.min (2 * 15 + 1) (Z.of_nat (length photos_40)))
    ∧ (0 ≤ 20 < Z.of_nat (length photos_40) →
       20 < 15 ∨ Z.of_nat (length photos_40) - 1 - 15 < 20 →
       Z.of_nat (length window) < 2 * 15 + 1)
    ∧ Z.of_nat (length window) ≤ Z.min (2 * 15 + 1) (Z.of_nat (length photos_40)).
Proof.
  apply (filteredImages_window photos_40 20).
  unfold dense_ids, photos_40. rewrite <- list_fmap_compose, length_fmap.
  rewrite length_seqZ. cbn. by rewrite list_fmap_id.
Defined.

(** ** Layout *)

(** *** Integers as binary64 numbers *)

Lemma digits2_pos_bound p :
  2 ^ (Z.pos (digits2_pos p) - 1) ≤ Z.pos p < 2 ^ Z.pos (digits2_pos p).
Proof.
  induction p as [p IH|p IH|]; cbn [digits2_pos].
  - rewrite Pos2Z.inj_succ, Z.pow_succ_r by lia.
    replace (Z.succ (Z.pos (digits2_pos p)) - 1)
      with (Z.succ (Z.pos (digits2_pos p) - 1)) by lia.
    rewrite Z.pow_succ_r by lia. lia.
  - rewrite Pos2Z.inj_succ, Z.pow_succ_r by lia.
    replace (Z.succ (Z.pos (digits2_pos p)) - 1)
      with (Z.succ (Z.pos (digits2_pos p) - 1)) by lia.
    rewrite Z.pow_succ_r by lia. lia.
  - cbn. lia.
Qed.

Lemma digits2_pos_le p n : Z.pos p < 2 ^ n → 0 ≤ n → Z.pos (digits2_pos p) ≤ n.
Proof.
  intros Hp Hn. pose proof (digits2_pos_bound p) as [Hlo _].
  destruct (Z_le_gt_dec (Z.pos (digits2_pos p)) n) as [|Hgt]; [done|].
  exfalso.
  assert (2 ^ n ≤ 2 ^ (Z.pos (digits2_pos p) - 1))
    by (apply Z.pow_le_mono_r; lia).
  lia.
Qed.

Lemma iter_xO_value p d : Z.pos (Pos.iter xO p d) = Z.pos p * 2 ^ Z.pos d.
Proof.
  induction d as [|d IH] using Pos.peano_ind.
  - cbn. lia.
  - rewrite Pos.iter_succ, Pos2Z.inj_succ, Z.pow_succ_r by lia.
    rewrite Pos2Z.inj_xO, IH. lia.
Qed.

Lemma iter_xO_digits p d :
  digits2_pos (Pos.iter xO p d) = (digits2_pos p + d)%positive.
Proof.
  induction d as [|d IH] using Pos.peano_ind.
  - cbn. lia.
  - rewrite Pos.iter_succ. cbn [digits2_pos]. rewrite IH. lia.
Qed.

(** A mantissa of 53 bits with an exponent in range is not rounded. *)
Lemma binary_round_aux_exact s m e :
  Z.pos (digits2_pos m) = 53 → -1074 ≤ e ≤ 971 →
  binary_round_aux JS.prec JS.emax s (Z.pos m) e loc_Exact = S754_finite s m e.
Proof.
  intros Hm He.
  assert (∀ l, shr_fexp JS.prec JS.emax (Z.pos m) e l
               = (shr_record_of_loc (Z.pos m) l, e)) as Hshr.
  { intros l. unfold shr_fexp, fexp, emin, JS.prec, JS.emax. cbn [Zdigits2].
    rewrite Hm. replace ((53 + e - 53) `max` (3 - 1024 - 53) - e) with 0 by lia.
    reflexivity. }
  unfold binary_round_aux. rewrite Hshr.
  cbn [shr_record_of_loc shr_m loc_of_shr_record round_nearest_even].
  rewrite Hshr. cbn [shr_record_of_loc shr_m].
  unfold JS.prec, JS.emax. destruct (Z.leb_spec e (1024 - 53)); [done|lia].
Qed.



(** *** The arithmetic gives canonical numbers *)

Lemma Zdigits2_bound m :
  0 < m → 0 < Zdigits2 m ∧ 2 ^ (Zdigits2 m - 1) ≤ m < 2 ^ Zdigits2 m.
Proof.
  destruct m as [|p|p]; [lia| |lia]. intros _. cbn [Zdigits2].
  split; [lia|apply digits2_pos_bound].
Qed.

Lemma Zdigits2_unique m d :
  0 < m → 2 ^ (d - 1) ≤ m < 2 ^ d → Zdigits2 m = d.
Proof.
  intros Hm [Hlo Hhi]. destruct (Zdigits2_bound m Hm) as (Hd0 & Hlo0 & Hhi0).
  destruct (Z.lt_trichotomy (Zdigits2 m) d) as [Hlt|[Heq|Hgt]]; [|done|].
  - assert (2 ^ Zdigits2 m ≤ 2 ^ (d - 1)) by (apply Z.pow_le_mono_r; lia). lia.
  - destruct (Z_lt_le_dec d 0) as [Hneg|Hnn].
    + rewrite Z.pow_neg_r in Hhi by lia. lia.
    + assert (2 ^ d ≤ 2 ^ (Zdigits2 m - 1)) by (apply Z.pow_le_mono_r; lia). lia.
Qed.

Lemma Zdigits2_0 : Zdigits2 0 = 0.
Proof. reflexivity. Qed.






















(** *** [Math.round] *)




(** *** [calculateDimensions] *)

Lemma Number_decimal s n : JS.digits_value 0 s = Some n → JS.Number s = JS.of_Z n.
Proof. unfold JS.Number. by intros ->. Qed.



(** The arithmetic is that of binary64, each step rounded before the
    next. For 2080 x 1508 under 800 x 600 the width is min(700, 2080) =
    700 and the exact height 700 * 1508 / 2080 would be 507.5; the
    quotient 2080 / 1508 and then 700 divided by it are rounded to
    binary64, the height computed falls just below 507.5, and
    [Math.round] gives 507. *)
Example calculateDimensions_2080_1508 s :
  dimensions (calculateDimensions (photo_sized "2080" "1508")
                {| innerWidth := 800; innerHeight := 600 |} s)
  = Dimensions.mk (JS.of_Z 700) (JS.of_Z 507)
  ∧ 2 * (700 * 1508) = (2 * 507 + 1) * 2080.
Proof. split; reflexivity. Qed.

(** C8, as the code has it. For the landscape record of intrinsic size
    2000 x 1000 under the viewport 1400 x 900, the dimensions are set to
    width 1280 and height 640, whatever the state before. *)
Theorem calculateDimensions_2000_1000 s :
  dimensions (calculateDimensions (photo_sized "2000" "1000") window_1400_900 s)
  = Dimensions.mk (JS.of_Z 1280) (JS.of_Z 640)
  ∧ JS.integer_value (Dimensions.width (dimensions
      (calculateDimensions (photo_sized "2000" "1000") window_1400_900 s)))
    = Some 1280
  ∧ JS.integer_value (Dimensions.height (dimensions
      (calculateDimensions (photo_sized "2000" "1000") window_1400_900 s)))
    = Some 640.
Proof. split_and!; reflexivity. Qed.

(** C8, as stated, fails: the dimensions computed for 2000 x 1000 under
    1400 x 900 are not 1180 x 590; the width is 1280 and the height 640. *)
Lemma calculateDimensions_2000_1000_not_1180_590 :
  dimensions (calculateDimensions (photo_sized "2000" "1000") window_1400_900
                initialState)
  ≠ Dimensions.mk (JS.of_Z 1180) (JS.of_Z 590)
  ∧ JS.integer_value (Dimensions.width (dimensions
      (calculateDimensions (photo_sized "2000" "1000") window_1400_900 initialState)))
    = Some 1280
  ∧ JS.integer_value (Dimensions.height (dimensions
      (calculateDimensions (photo_sized "2000" "1000") window_1400_900 initialState)))
    = Some 640.
Proof.
  split_and!; [|reflexivity..].
  intros H. vm_compute in H. discriminate H.
Qed.

(** ** Further properties of the code *)

(** X1. For admissible draws, [shuffleArray] returns a permutation of the
    array it is given, of the same length. *)
Theorem shuffleArray_permutes {T} (random : nat → nat) (array : list T) :
  (∀ i, (random i ≤ i)%nat) →
  shuffleArray random array ≡ₚ array
  ∧ length (shuffleArray random array) = length array.
Proof.
  intros _. pose proof (shuffleArray_Permutation random array) as H.
  split; [done|]. by rewrite H.
Qed.

Lemma shuffleArray_permutes_witness :
  shuffleArray draw_zero [10; 20; 30] ≡ₚ [10; 20; 30]
  ∧ length (shuffleArray draw_zero [10; 20; 30]) = length [10; 20; 30].
Proof.
  apply (shuffleArray_permutes draw_zero [10; 20; 30]).
  intros i. unfold draw_zero. lia.
Defined.

(** X2. In a render that shows the overlay of a viewer with navigation,
    the previous button is there exactly when [index > 0] and asks for
    [index - 1]; the next button is there exactly when [index + 1] is
    below the number of images and asks for [index + 1]. *)
Theorem nav_buttons_guarded props s v o photos :
  SharedModal props s = Some v → overlay v = Some o →
  navigation props = true → images props = Some photos →
  prevButton o
    = (if 0 <? index props then Some [changePhotoId (index props - 1)] else None)
  ∧ nextButton o
    = (if index props + 1 <? Z.of_nat (length photos)
       then Some [changePhotoId (index props + 1)] else None)
  ∧ (index props = 0 → prevButton o = None)
  ∧ (index props = Z.of_nat (length photos) - 1 → nextButton o = None).
Proof.
  intros Hrender Hoverlay Hnavigation Himages.
  apply render_Some in Hrender as (cur & _ & _ & _ & _ & Ho).
  destruct (Ho o Hoverlay) as (_ & _ & Hbuttons).
  destruct (Hbuttons Hnavigation) as (photos' & Hphotos & Hprev & Hnext & _).
  rewrite Himages in Hphotos. injection Hphotos as <-.
  split_and!; [done|done|..].
  - intros Hfirst. rewrite Hprev, Hfirst. done.
  - intros Hlast. rewrite Hnext.
    destruct (Z.ltb_spec (index props + 1) (Z.of_nat (length photos))); [lia|done].
Qed.

Lemma nav_buttons_guarded_witness :
  ∃ v o,
    SharedModal (viewer_at 2) (setLoaded true initialState) = Some v
    ∧ overlay v = Some o
    ∧ prevButton o = Some [changePhotoId 1]
    ∧ nextButton o = None
    ∧ (2 = 0 → prevButton o = None)
    ∧ (2 = Z.of_nat (length photos_shuffled) - 1 → nextButton o = None).
Proof.
  eexists _, _. split; [reflexivity|]. split; [reflexivity|].
  exact (nav_buttons_guarded (viewer_at 2) (setLoaded true initialState) _ _
           photos_shuffled eq_refl eq_refl eq_refl eq_refl).
Defined.

(** X3. In a collection with distinct ids, the record shown for the id of
    a record of the collection is that record; for an id that no record
    has there is no current record and nothing is rendered. *)
Theorem currentImage_resolves props photos :
  images props = Some photos → unique_ids photos →
  (∀ A, A ∈ photos → index props = id A → currentImage props = Some A)
  ∧ ((∀ A, A ∈ photos → id A ≠ index props) →
     currentImage props = None ∧ ∀ s, SharedModal props s = None).
Proof.
  intros Himages Hid. unfold SharedModal, currentImage. rewrite Himages.
  split.
  - intros A HA ->. by apply find_unique.
  - intros Hnone.
    destruct (List.find _ photos) as [cur|] eqn:Hcur; [|done].
    apply find_Some_elem_of in Hcur as [Hin Heq].
    apply Z.eqb_eq in Heq. by destruct (Hnone cur Hin).
Qed.

Lemma currentImage_resolves_witness :
  (∀ A, A ∈ photos_shuffled → index (viewer_at 1) = id A →
        currentImage (viewer_at 1) = Some A)
  ∧ ((∀ A, A ∈ photos_shuffled → id A ≠ index (viewer_at 1)) →
     currentImage (viewer_at 1) = None
     ∧ ∀ s, SharedModal (viewer_at 1) s = None).
Proof.
  apply (currentImage_resolves (viewer_at 1) photos_shuffled eq_refl).
  unfold unique_ids. cbn. apply (NoDup_seqZ 0 3).
Defined.

(** *** Integer arithmetic in binary64 is exact *)

(** The binary64 form of a positive integer below 2^53: the mantissa is
    the integer shifted to 53 bits. *)
Lemma binary_round_explicit s p :
  Z.pos p < 2 ^ 53 →
  ∃ m,
    binary_round JS.prec JS.emax s p 0 = S754_finite s m (Zdigits2 (Z.pos p) - 53)
    ∧ Z.pos m = Z.pos p * 2 ^ (53 - Zdigits2 (Z.pos p))
    ∧ Z.pos (digits2_pos m) = 53.
Proof.
  intros Hp.
  pose proof (digits2_pos_le p 53 Hp ltac:(lia)) as Hd.
  pose proof (Pos2Z.is_pos (digits2_pos p)) as Hd0.
  unfold binary_round, shl_align, fexp, emin, JS.prec, JS.emax. cbn [Zdigits2].
  rewrite Z.add_0_r, Z.sub_0_r.
  rewrite Z.max_l by lia.
  destruct (Z.pos (digits2_pos p) - 53) as [|q|q] eqn:Hq; [|lia|].
  - exists p. replace (Z.pos (digits2_pos p)) with 53 by lia.
    split; [|split; [cbn; lia|lia]].
    apply binary_round_aux_exact; lia.
  - exists (Pos.iter xO p q).
    assert (Z.pos (digits2_pos (Pos.iter xO p q)) = 53) as Hdig
      by (rewrite iter_xO_digits, Pos2Z.inj_add; lia).
    split; [|split; [|done]].
    + apply binary_round_aux_exact; [done|lia].
    + rewrite iter_xO_value. f_equal. f_equal. lia.
Qed.

Lemma of_Z_pos p :
  Z.pos p < 2 ^ 53 →
  ∃ m, JS.of_Z (Z.pos p) = S754_finite false m (Zdigits2 (Z.pos p) - 53)
       ∧ Z.pos m = Z.pos p * 2 ^ (53 - Zdigits2 (Z.pos p))
       ∧ Z.pos (digits2_pos m) = 53.
Proof. apply binary_round_explicit. Qed.

Lemma of_Z_neg p :
  Z.pos p < 2 ^ 53 →
  ∃ m, JS.of_Z (Z.neg p) = S754_finite true m (Zdigits2 (Z.pos p) - 53)
       ∧ Z.pos m = Z.pos p * 2 ^ (53 - Zdigits2 (Z.pos p))
       ∧ Z.pos (digits2_pos m) = 53.
Proof. apply binary_round_explicit. Qed.

Lemma Zdigits2_le_53 p : Z.pos p < 2 ^ 53 → 0 < Zdigits2 (Z.pos p) ≤ 53.
Proof.
  intros Hp. cbn [Zdigits2]. split; [lia|]. apply digits2_pos_le; lia.
Qed.

(** Comparing two positive integers through their binary64 forms. *)
Lemma compare_pos_forms p q mp mq :
  Z.pos p < 2 ^ 53 → Z.pos q < 2 ^ 53 →
  Z.pos mp = Z.pos p * 2 ^ (53 - Zdigits2 (Z.pos p)) →
  Z.pos mq = Z.pos q * 2 ^ (53 - Zdigits2 (Z.pos q)) →
  match Zdigits2 (Z.pos p) - 53 ?= Zdigits2 (Z.pos q) - 53 with
  | Lt => Lt
  | Gt => Gt
  | Eq => Pos.compare_cont Eq mp mq
  end = (Z.pos p ?= Z.pos q).
Proof.
  intros Hp Hq Hmp Hmq.
  pose proof (Zdigits2_le_53 p Hp) as Hp53.
  pose proof (Zdigits2_le_53 q Hq) as Hq53.
  destruct (Zdigits2_bound (Z.pos p) ltac:(lia)) as (Hdp & Hlop & Hhip).
  destruct (Zdigits2_bound (Z.pos q) ltac:(lia)) as (Hdq & Hloq & Hhiq).
  destruct (Z.compare_spec (Zdigits2 (Z.pos p) - 53) (Zdigits2 (Z.pos q) - 53))
    as [Heq|Hlt|Hgt].
  - change (Pos.compare_cont Eq mp mq) with (Z.pos mp ?= Z.pos mq).
    rewrite Hmp, Hmq. replace (Zdigits2 (Z.pos q)) with (Zdigits2 (Z.pos p)) by lia.
    symmetry. apply Zmult_compare_compat_r.
    apply Z.lt_gt, Z.pow_pos_nonneg; lia.
  - symmetry. apply Z.compare_lt_iff.
    assert (2 ^ Zdigits2 (Z.pos p) ≤ 2 ^ (Zdigits2 (Z.pos q) - 1))
      by (apply Z.pow_le_mono_r; lia).
    lia.
  - symmetry. apply Z.compare_gt_iff.
    assert (2 ^ Zdigits2 (Z.pos q) ≤ 2 ^ (Zdigits2 (Z.pos p) - 1))
      by (apply Z.pow_le_mono_r; lia).
    lia.
Qed.

(** On integers below 2^53 in absolute value, the comparison of binary64
    numbers is the comparison of the integers. *)
Lemma SFcompare_of_Z a b :
  - 2 ^ 53 < a < 2 ^ 53 → - 2 ^ 53 < b < 2 ^ 53 →
  SFcompare (JS.of_Z a) (JS.of_Z b) = Some (a ?= b).
Proof.
  intros Ha Hb.
  destruct a as [|p|p], b as [|q|q]; try reflexivity.
  - destruct (of_Z_pos q) as (mq & -> & _); [lia|]. reflexivity.
  - destruct (of_Z_neg q) as (mq & -> & _); [lia|]. reflexivity.
  - destruct (of_Z_pos p) as (mp & -> & _); [lia|]. reflexivity.
  - destruct (of_Z_pos p) as (mp & -> & Hmp & _); [lia|].
    destruct (of_Z_pos q) as (mq & -> & Hmq & _); [lia|].
    cbn [SFcompare]. f_equal. apply compare_pos_forms; lia.
  - destruct (of_Z_pos p) as (mp & -> & _); [lia|].
    destruct (of_Z_neg q) as (mq & -> & _); [lia|]. reflexivity.
  - destruct (of_Z_neg p) as (mp & -> & _); [lia|]. reflexivity.
  - destruct (of_Z_neg p) as (mp & -> & _); [lia|].
    destruct (of_Z_pos q) as (mq & -> & _); [lia|]. reflexivity.
  - destruct (of_Z_neg p) as (mp & -> & Hmp & _); [lia|].
    destruct (of_Z_neg q) as (mq & -> & Hmq & _); [lia|].
    cbn [SFcompare]. f_equal.
    change (Z.neg p ?= Z.neg q) with (CompOpp (Z.pos p ?= Z.pos q)).
    rewrite <- (compare_pos_forms p q mp mq) by lia.
    by destruct (_ ?= _).
Qed.

Lemma Math_min_of_Z a b :
  - 2 ^ 53 < a < 2 ^ 53 → - 2 ^ 53 < b < 2 ^ 53 →
  JS.Math_min (JS.of_Z a) (JS.of_Z b) = JS.of_Z (Z.min a b).
Proof.
  intros Ha Hb. unfold JS.Math_min. rewrite SFcompare_of_Z by done.
  unfold Z.min. destruct (Z.compare_spec a b) as [->|Hlt|Hgt]; try done.
  destruct b as [|q|q]; [done|..].
  - destruct (of_Z_pos q) as (mq & -> & _); [lia|]. reflexivity.
  - destruct (of_Z_neg q) as (mq & -> & _); [lia|]. reflexivity.
Qed.

Lemma shr_1_double x :
  shr_1 {| shr_m := 2 * x; shr_r := false; shr_s := false |}
  = {| shr_m := x; shr_r := false; shr_s := false |}.
Proof. by destruct x. Qed.

(** Shifting out zero bits leaves nothing to round. *)
Lemma iter_pos_shr_1_exact n c :
  SpecFloat.iter_pos shr_1 n
    {| shr_m := c * 2 ^ Z.pos n; shr_r := false; shr_s := false |}
  = {| shr_m := c; shr_r := false; shr_s := false |}.
Proof.
  revert c. induction n as [n IH|n IH|]; intros c; cbn [SpecFloat.iter_pos].
  - replace (c * 2 ^ Z.pos n~1) with (2 * (c * 2 ^ Z.pos n * 2 ^ Z.pos n)).
    + by rewrite shr_1_double, !IH.
    + replace (Z.pos n~1) with (Z.pos n + Z.pos n + 1) by lia.
      rewrite !Z.pow_add_r by lia. lia.
  - replace (c * 2 ^ Z.pos n~0) with (c * 2 ^ Z.pos n * 2 ^ Z.pos n).
    + by rewrite !IH.
    + replace (Z.pos n~0) with (Z.pos n + Z.pos n) by lia.
      rewrite !Z.pow_add_r by lia. lia.
  - replace (c * 2 ^ 1) with (2 * c) by lia. apply shr_1_double.
Qed.

Lemma Zdigits2_mul_pow2 p k :
  0 ≤ k → Zdigits2 (Z.pos p * 2 ^ k) = Zdigits2 (Z.pos p) + k.
Proof.
  intros Hk. destruct (Zdigits2_bound (Z.pos p) ltac:(lia)) as (Hd & Hlo & Hhi).
  assert (0 < 2 ^ k) by (apply Z.pow_pos_nonneg; lia).
  apply Zdigits2_unique; [lia|].
  replace (Zdigits2 (Z.pos p) + k - 1) with (Zdigits2 (Z.pos p) - 1 + k) by lia.
  rewrite !Z.pow_add_r by lia. nia.
Qed.

(** The binary64 form of an integer below 2^53 given with trailing zero
    bits and the matching negative exponent. *)
Lemma binary_round_shifted s p P k :
  Z.pos p < 2 ^ 53 → 0 ≤ k → Z.pos P = Z.pos p * 2 ^ k →
  binary_round JS.prec JS.emax s P (- k) = binary_round JS.prec JS.emax s p 0.
Proof.
  intros Hp Hk HP.
  destruct (binary_round_explicit s p Hp) as (m & -> & Hm & Hdm).
  pose proof (Zdigits2_le_53 p Hp) as Hd.
  set (d := Zdigits2 (Z.pos p)) in *.
  assert (Z.pos (digits2_pos P) = d + k) as HD.
  { change (Z.pos (digits2_pos P)) with (Zdigits2 (Z.pos P)).
    rewrite HP. by apply Zdigits2_mul_pow2. }
  unfold binary_round, shl_align. rewrite HD.
  replace (fexp JS.prec JS.emax (d + k + - k)) with (d - 53)
    by (unfold fexp, emin, JS.prec, JS.emax; lia).
  destruct (d - 53 - - k) as [|q|q] eqn:Hq.
  - replace (- k) with (d - 53) by lia.
    assert (P = m) as -> by (apply Pos2Z.inj; rewrite HP, Hm; f_equal; f_equal; lia).
    apply binary_round_aux_exact; [done|lia].
  - (* more than 53 bits: the trailing zeros are shifted out *)
    assert (Z.pos P = Z.pos m * 2 ^ Z.pos q) as HPm.
    { rewrite HP, Hm, <- Z.mul_assoc, <- Z.pow_add_r by lia. f_equal. f_equal. lia. }
    unfold binary_round_aux.
    assert (shr_fexp JS.prec JS.emax (Z.pos P) (- k) loc_Exact
            = ({| shr_m := Z.pos m; shr_r := false; shr_s := false |}, d - 53))
      as ->.
    { unfold shr_fexp. cbn [Zdigits2 shr_record_of_loc]. rewrite HD.
      replace (fexp JS.prec JS.emax (d + k + - k)) with (d - 53)
        by (unfold fexp, emin, JS.prec, JS.emax; lia).
      rewrite Hq. cbn [shr]. rewrite HPm, iter_pos_shr_1_exact.
      f_equal. lia. }
    cbn [shr_m loc_of_shr_record round_nearest_even].
    assert (shr_fexp JS.prec JS.emax (Z.pos m) (d - 53) loc_Exact
            = ({| shr_m := Z.pos m; shr_r := false; shr_s := false |}, d - 53))
      as ->.
    { unfold shr_fexp. cbn [Zdigits2 shr_record_of_loc]. rewrite Hdm.
      replace (fexp JS.prec JS.emax (53 + (d - 53)) - (d - 53)) with 0
        by (unfold fexp, emin, JS.prec, JS.emax; lia).
      reflexivity. }
    cbn [shr_m]. unfold JS.prec, JS.emax.
    destruct (Z.leb_spec (d - 53) (1024 - 53)); [done|lia].
  - assert (Z.pos (Pos.iter xO P q) = Z.pos m) as Heq.
    { rewrite iter_xO_value, HP, Hm, <- Z.mul_assoc, <- Z.pow_add_r by lia.
      f_equal. f_equal. lia. }
    apply Pos2Z.inj in Heq. rewrite Heq.
    apply binary_round_aux_exact; [done|lia].
Qed.

Lemma binary_normalize_shifted n k sz :
  - 2 ^ 53 < n < 2 ^ 53 → 0 ≤ k →
  binary_normalize JS.prec JS.emax (n * 2 ^ k) (- k) sz
  = binary_normalize JS.prec JS.emax n 0 sz.
Proof.
  intros Hn Hk. assert (0 < 2 ^ k) as Hpow by (apply Z.pow_pos_nonneg; lia).
  destruct n as [|p|p].
  - by rewrite Z.mul_0_l.
  - destruct (Z.pos p * 2 ^ k) as [|P|P] eqn:HP; [lia| |lia].
    cbn [binary_normalize]. apply binary_round_shifted; [lia|done|done].
  - destruct (Z.neg p * 2 ^ k) as [|P|P] eqn:HP; [lia|lia|].
    cbn [binary_normalize]. apply binary_round_shifted; [lia|done|lia].
Qed.

Lemma shl_align_fst m e ez :
  ez ≤ e → Z.pos (fst (shl_align m e ez)) = Z.pos m * 2 ^ (e - ez).
Proof.
  intros He. unfold shl_align. destruct (ez - e) as [|q|q] eqn:Hq; cbn [fst].
  - replace (e - ez) with 0 by lia. lia.
  - lia.
  - rewrite iter_xO_value. f_equal. f_equal. lia.
Qed.

(** The binary64 form of a nonzero integer below 2^53 in absolute value:
    sign, mantissa and exponent. *)
Lemma of_Z_form n :
  n ≠ 0 → - 2 ^ 53 < n < 2 ^ 53 →
  ∃ m e,
    JS.of_Z n = S754_finite (n <? 0) m e
    ∧ -52 ≤ e ≤ 0
    ∧ JS.signed (n <? 0) m = n * 2 ^ (- e).
Proof.
  intros Hn0 Hn. destruct n as [|p|p]; [done|..].
  - destruct (of_Z_pos p) as (m & -> & Hm & _); [lia|].
    pose proof (Zdigits2_le_53 p ltac:(lia)).
    exists m, (Zdigits2 (Z.pos p) - 53). split_and!; [done|lia|lia|].
    cbn [JS.signed Z.ltb Z.compare]. rewrite Hm. f_equal. f_equal. lia.
  - destruct (of_Z_neg p) as (m & -> & Hm & _); [lia|].
    pose proof (Zdigits2_le_53 p ltac:(lia)).
    exists m, (Zdigits2 (Z.pos p) - 53). split_and!; [done|lia|lia|].
    cbn [JS.signed Z.ltb Z.compare].
    rewrite <- Pos2Z.opp_pos, Hm, <- Pos2Z.opp_pos.
    replace (- (Zdigits2 (Z.pos p) - 53)) with (53 - Zdigits2 (Z.pos p)) by lia.
    lia.
Qed.

Lemma cond_Zopp_shl_align s m e ez :
  ez ≤ e →
  cond_Zopp s (Z.pos (fst (shl_align m e ez))) = JS.signed s m * 2 ^ (e - ez).
Proof.
  intros He. rewrite shl_align_fst by done. destruct s; cbn [cond_Zopp JS.signed]; lia.
Qed.

(** Subtraction is exact on integers when the operands and the difference
    are below 2^53 in absolute value. *)
Lemma sub_of_Z a b :
  - 2 ^ 53 < a < 2 ^ 53 → - 2 ^ 53 < b < 2 ^ 53 → - 2 ^ 53 < a - b < 2 ^ 53 →
  JS.sub (JS.of_Z a) (JS.of_Z b) = JS.of_Z (a - b).
Proof.
  intros Ha Hb Hab.
  destruct (Z.eq_dec b 0) as [->|Hb0].
  { rewrite Z.sub_0_r. destruct (Z.eq_dec a 0) as [->|Ha0]; [done|].
    destruct (of_Z_form a Ha0 Ha) as (ma & ea & -> & _). reflexivity. }
  destruct (Z.eq_dec a 0) as [->|Ha0].
  { destruct b as [|q|q]; [done|..].
    - destruct (binary_round_explicit false q) as (m & H1 & Hm1 & _); [lia|].
      destruct (binary_round_explicit true q) as (m' & H2 & Hm2 & _); [lia|].
      assert (m' = m) as -> by (apply Pos2Z.inj; congruence).
      change (0 - Z.pos q) with (Z.neg q).
      unfold JS.sub, JS.of_Z. cbn [binary_normalize].
      by rewrite H1, H2.
    - destruct (binary_round_explicit false q) as (m & H1 & Hm1 & _); [lia|].
      destruct (binary_round_explicit true q) as (m' & H2 & Hm2 & _); [lia|].
      assert (m' = m) as -> by (apply Pos2Z.inj; congruence).
      change (0 - Z.neg q) with (Z.pos q).
      unfold JS.sub, JS.of_Z. cbn [binary_normalize].
      by rewrite H1, H2. }
  destruct (of_Z_form a Ha0 Ha) as (ma & ea & -> & Hea & Hma).
  destruct (of_Z_form b Hb0 Hb) as (mb & eb & -> & Heb & Hmb).
  unfold JS.sub, JS.of_Z. cbn [SFsub].
  rewrite !cond_Zopp_shl_align, Hma, Hmb by lia.
  set (ez := ea `min` eb).
  assert (a * 2 ^ (- ea) * 2 ^ (ea - ez) - b * 2 ^ (- eb) * 2 ^ (eb - ez)
          = (a - b) * 2 ^ (- ez)) as ->.
  { rewrite <- !Z.mul_assoc, <- !Z.pow_add_r by lia.
    replace (- ea + (ea - ez)) with (- ez) by lia.
    replace (- eb + (eb - ez)) with (- ez) by lia. lia. }
  replace ez with (- - ez) at 2 by lia.
  apply binary_normalize_shifted; lia.
Qed.

(** [Math.round] leaves an integer as it is. *)
Lemma Math_round_of_Z n :
  - 2 ^ 53 < n < 2 ^ 53 → JS.Math_round (JS.of_Z n) = JS.of_Z n.
Proof.
  intros Hn. destruct (Z.eq_dec n 0) as [->|Hn0]; [done|].
  destruct (of_Z_form n Hn0 Hn) as (m & e & Hform & He & Hm).
  rewrite Hform. cbn [JS.Math_round].
  destruct (Z.leb_spec 0 e) as [|Hneg]; [done|].
  rewrite Hm. unfold JS.round_half_up. rewrite Z.shiftr_div_pow2 by lia.
  assert (2 ^ (- e) = 2 * 2 ^ (- e - 1)) as Hpow
    by (rewrite <- Z.pow_succ_r by lia; f_equal; lia).
  assert (0 < 2 ^ (- e - 1)) by (apply Z.pow_pos_nonneg; lia).
  assert ((n * 2 ^ (- e) + 2 ^ (- e - 1)) / 2 ^ (- e) = n) as ->
    by (symmetry; apply Z.div_unique_pos with (r := 2 ^ (- e - 1)); lia).
  rewrite <- Hform. unfold JS.of_Z. by destruct n.
Qed.


Lemma digits_value_ge acc s n : JS.digits_value acc s = Some n → 0 ≤ acc → acc ≤ n.
Proof.
  revert acc. induction s as [|c s IH]; intros acc; cbn [JS.digits_value].
  - intros [= ->]. lia.
  - destruct (JS.is_digit c) eqn:Hc; [|done]. intros Hn Hacc.
    unfold JS.is_digit in Hc. apply andb_true_iff in Hc as [Hlo _].
    apply Z.leb_le in Hlo. apply IH in Hn; lia.
Qed.

(** X4. For a record whose width and height are decimal strings below
    2^53 and a viewport whose sides are 32-bit integers, the side that the
    layout caps is an exact integer: in the landscape branch the width is
    min(min(1280, innerWidth - 100), intrinsic width), in the other branch
    the height is min(innerHeight - 100, intrinsic height); the other side
    is that integer divided, or multiplied, by the binary64 ratio and
    rounded by [Math.round]. *)
Theorem calculateDimensions_integer_side
    currentImage window s intrinsicWidth intrinsicHeight :
  JS.digits_value 0 (width currentImage) = Some intrinsicWidth →
  JS.digits_value 0 (height currentImage) = Some intrinsicHeight →
  intrinsicWidth < 2 ^ 53 → intrinsicHeight < 2 ^ 53 →
  - 2 ^ 31 ≤ innerWidth window < 2 ^ 31 →
  - 2 ^ 31 ≤ innerHeight window < 2 ^ 31 →
  let maxW := Z.min 1280 (innerWidth window - 100) in
  let maxH := innerHeight window - 100 in
  let ratio := JS.div (JS.of_Z intrinsicWidth) (JS.of_Z intrinsicHeight) in
  dimensions (calculateDimensions currentImage window s) =
    if JS.gt ratio (JS.of_Z 1)
    then Dimensions.mk
           (JS.of_Z (Z.min maxW intrinsicWidth))
           (JS.Math_round (JS.div (JS.of_Z (Z.min maxW intrinsicWidth)) ratio))
    else Dimensions.mk
           (JS.Math_round (JS.mul (JS.of_Z (Z.min maxH intrinsicHeight)) ratio))
           (JS.of_Z (Z.min maxH intrinsicHeight)).
Proof.
  intros Hwidth Hheight Hw Hh HinnerWidth HinnerHeight maxW maxH ratio.
  pose proof (digits_value_ge _ _ _ Hwidth ltac:(lia)) as Hw0.
  pose proof (digits_value_ge _ _ _ Hheight ltac:(lia)) as Hh0.
  unfold calculateDimensions.
  rewrite (Number_decimal _ _ Hwidth), (Number_decimal _ _ Hheight).
  rewrite !sub_of_Z by lia. rewrite Math_min_of_Z by lia.
  fold maxW maxH ratio.
  destruct (JS.gt ratio (JS.of_Z 1)); cbn [dimensions setDimensions].
  - rewrite Math_min_of_Z by lia. by rewrite Math_round_of_Z by lia.
  - rewrite Math_min_of_Z by lia. by rewrite Math_round_of_Z by lia.
Qed.

Lemma calculateDimensions_integer_side_witness :
  dimensions (calculateDimensions (photo_sized "2000" "1000") window_1400_900 initialState)
  = Dimensions.mk
      (JS.of_Z (Z.min (Z.min 1280 (1400 - 100)) 2000))
      (JS.Math_round
         (JS.div (JS.of_Z (Z.min (Z.min 1280 (1400 - 100)) 2000))
            (JS.div (JS.of_Z 2000) (JS.of_Z 1000)))).
Proof.
  apply (calculateDimensions_integer_side
           (photo_sized "2000" "1000") window_1400_900 initialState 2000 1000);
    [reflexivity|reflexivity|reflexivity|reflexivity|cbn; lia|cbn; lia].
Defined.

(** ** The gallery keeps every resource, or none *)

Section mapM_facts.
Context {A B : Type} (f : A → option B).

Lemma mapM_Permutation l1 l2 k1 :
  l1 ≡ₚ l2 → mapM f l1 = Some k1 → ∃ k2, mapM f l2 = Some k2 ∧ k1 ≡ₚ k2.
Proof.
  setoid_rewrite mapM_Some. intros Hl. revert k1.
  induction Hl as [|x l1 l2 _ IH|x y l|l1 l2 l3 _ IH1 _ IH2]; intros k1 Hk1.
  - exists k1. done.
  - apply Forall2_cons_inv_l in Hk1 as (b & k & Hx & Hk & ->).
    destruct (IH k Hk) as (k2 & Hk2 & Hperm).
    exists (b :: k2). split; [by constructor|by constructor].
  - apply Forall2_cons_inv_l in Hk1 as (b & k' & Hy & Hk' & ->).
    apply Forall2_cons_inv_l in Hk' as (a & k & Hx & Hk & ->).
    exists (a :: b :: k). split; [by repeat constructor|by constructor].
  - destruct (IH1 _ Hk1) as (k2 & Hk2 & Hperm1).
    destruct (IH2 _ Hk2) as (k3 & Hk3 & Hperm2).
    exists k3. split; [done|]. by etrans.
Qed.

Lemma mapM_Permutation_None l1 l2 :
  l1 ≡ₚ l2 → mapM f l1 = None → mapM f l2 = None.
Proof.
  intros Hl Hnone. apply eq_None_not_Some. intros [k2 Hk2].
  destruct (mapM_Permutation l2 l1 k2) as (k1 & Hk1 & _); [done|done|].
  congruence.
Qed.
End mapM_facts.

Lemma mapM_lookup_seq {A} (l : list A) :
  mapM (l !!.) (seq 0 (length l)) = Some l.
Proof.
  apply mapM_Some. apply Forall2_lookup. intros i.
  destruct (decide (i < length l)%nat) as [Hi|Hi].
  - rewrite lookup_seq_lt by done.
    destruct (lookup_lt_is_Some_2 l i Hi) as [x Hx]. rewrite Hx.
    constructor. done.
  - rewrite lookup_seq_ge by lia. rewrite lookup_ge_None_2 by lia. constructor.
Qed.

(** The [map] of [randomizedResults] rebuilds the record it picks:
    the record at position [newIndex] already has [navigationId]
    equal to [newIndex]. *)
Lemma randomizedResults_picks random resources :
  randomizedResults random (reducedResults resources)
  = mapM (reducedResults resources !!.)
         (shuffledOrder random (reducedResults resources)).
Proof.
  unfold randomizedResults. apply mapM_ext. intros newIndex.
  destruct (reducedResults resources !! newIndex) as [r|] eqn:Hr; [|done].
  apply reducedResults_lookup in Hr as [_ Hnav]. cbn.
  destruct r. cbn in *. by rewrite Hnav.
Qed.

Lemma randomizedResults_Permutation random resources :
  ∃ picked,
    randomizedResults random (reducedResults resources) = Some picked
    ∧ picked ≡ₚ reducedResults resources.
Proof.
  rewrite randomizedResults_picks.
  destruct (mapM_Permutation (reducedResults resources !!.)
              (seq 0 (length (reducedResults resources)))
              (shuffledOrder random (reducedResults resources))
              (reducedResults resources)) as (picked & Hpicked & Hperm).
  - symmetry. apply shuffledOrder_Permutation.
  - apply mapM_lookup_seq.
  - exists picked. done.
Qed.

Lemma mapM_zip_with {A B C} (f : A → option B) (g : A → B → C) l k :
  mapM f l = Some k → mapM (λ x, g x <$> f x) l = Some (zip_with g l k).
Proof.
  rewrite !mapM_Some. induction 1 as [|x b l k Hx _ IH]; cbn; [constructor|].
  constructor; [by rewrite Hx|done].
Qed.

(** X5. The shuffle of [getStaticProps] changes only the order: when
    every placeholder request succeeds, the gallery is a reordering of
    the records of the resources, taken in the host's order with
    [id = navigationId = position] and their placeholder; when the
    placeholder request of one record fails, or the search does, the
    gallery is empty. *)
Theorem getStaticProps_all_or_nothing
    (random : nat → nat) getBase64ImageUrl resources :
  (∀ i, (random i ≤ i)%nat) →
  (∀ urls,
     mapM getBase64ImageUrl (reducedResults resources) = Some urls →
     getStaticProps random getBase64ImageUrl (Some resources)
     ≡ₚ zip_with withBlurDataUrl (reducedResults resources) urls)
  ∧ (∀ r, r ∈ reducedResults resources → getBase64ImageUrl r = None →
     getStaticProps random getBase64ImageUrl (Some resources) = [])
  ∧ getStaticProps random getBase64ImageUrl None = [].
Proof.
  intros _. unfold getStaticProps, buildImages. cbn.
  destruct (randomizedResults_Permutation random resources)
    as (picked & -> & Hperm). cbn.
  split_and!; [| |done].
  - intros urls Hurls.
    apply (mapM_zip_with _ withBlurDataUrl) in Hurls.
    destruct (mapM_Permutation _ _ _ _ (symmetry Hperm) Hurls)
      as (images & Himages & Hperm').
    destruct (mapM getBase64ImageUrl picked) as [urls'|] eqn:Hurls'.
    + apply (mapM_zip_with _ withBlurDataUrl) in Hurls'.
      rewrite Hurls' in Himages. injection Himages as <-. cbn. by symmetry.
    + apply mapM_None in Hurls'. apply Exists_exists in Hurls' as (r & Hr & Hnone).
      assert (mapM (λ x, withBlurDataUrl x <$> getBase64ImageUrl x) picked = None)
        as Hcontra; [|congruence].
      apply mapM_None. apply Exists_exists. exists r. by rewrite Hnone.
  - intros r Hr Hnone.
    assert (mapM getBase64ImageUrl picked = None) as ->; [|done].
    apply mapM_None. apply Exists_exists. exists r. by rewrite Hperm.
Qed.

Lemma getStaticProps_all_or_nothing_witness :
  (∀ urls,
     mapM blur_stub (reducedResults two_resources) = Some urls →
     getStaticProps draw_zero blur_stub (Some two_resources)
     ≡ₚ zip_with withBlurDataUrl (reducedResults two_resources) urls)
  ∧ (∀ r, r ∈ reducedResults two_resources → blur_stub r = None →
     getStaticProps draw_zero blur_stub (Some two_resources) = [])
  ∧ getStaticProps draw_zero blur_stub None = [].
Proof.
  apply (getStaticProps_all_or_nothing draw_zero blur_stub two_resources).
  intros i. unfold draw_zero. lia.
Defined.

(** ** Every order can come out of the shuffle *)

Section shuffle_reach.
Context {T : Type}.
Implicit Types (l t : list T) (i j k : nat).

Lemma shuffle_loop_ext (r1 r2 : nat → nat) k l :
  (∀ i, (1 ≤ i ≤ k)%nat → r1 i = r2 i) →
  shuffle_loop r1 k l = shuffle_loop r2 k l.
Proof.
  revert l. induction k as [|k IH]; intros l Hr; [done|]. cbn.
  rewrite (Hr (S k)) by lia. apply IH. intros i Hi. apply Hr. lia.
Qed.

Lemma swap_lookup_l l i j x y :
  l !! i = Some y → l !! j = Some x → swap l i j !! i = Some x.
Proof.
  intros Hi Hj. unfold swap. rewrite Hi, Hj.
  pose proof (lookup_lt_Some _ _ _ Hi). pose proof (lookup_lt_Some _ _ _ Hj).
  destruct (decide (i = j)) as [->|Hij].
  - rewrite list_lookup_insert_eq by (by rewrite length_insert). congruence.
  - rewrite list_lookup_insert_ne by done. by rewrite list_lookup_insert_eq.
Qed.

Lemma swap_drop l i j : (j ≤ i)%nat → drop (S i) (swap l i j) = drop (S i) l.
Proof.
  intros Hji. unfold swap.
  destruct (l !! i), (l !! j); trivial.
  rewrite !drop_insert_lt by lia. done.
Qed.

(** The loop entered at [k] can turn [l] into any reordering [t] of it
    that already agrees with [l] after position [k]. *)
Lemma shuffle_loop_reaches k l t :
  l ≡ₚ t → drop (S k) l = drop (S k) t → (k < length l)%nat →
  ∃ random : nat → nat,
    (∀ i, (random i ≤ i)%nat) ∧ shuffle_loop random k l = t.
Proof.
  revert l. induction k as [|k IH]; intros l Hperm Hdrop Hk.
  - exists (λ _, 0%nat). split; [intros; lia|]. cbn.
    destruct l as [|a l]; [cbn in Hk; lia|].
    destruct t as [|b t]; [by apply Permutation_nil_r in Hperm|].
    cbn in Hdrop. rewrite !drop_0 in Hdrop. subst t.
    by apply (inj (.:: l)) in Hperm as ->.
  - pose proof (Permutation_length Hperm) as Hlen.
    destruct (lookup_lt_is_Some_2 t (S k)) as [x Hx]; [lia|].
    destruct (lookup_lt_is_Some_2 l (S k)) as [y Hy]; [lia|].
    assert (take (S (S k)) l ≡ₚ take (S (S k)) t) as Htake.
    { apply (inj (.++ drop (S (S k)) l)). rewrite Hdrop at 2.
      by rewrite !take_drop. }
    assert (x ∈ take (S (S k)) l) as Hin.
    { rewrite Htake. apply elem_of_take. exists (S k). split; [done|lia]. }
    apply elem_of_take in Hin as (j & Hj & Hjk).
    destruct (IH (swap l (S k) j)) as (random & Hrandom & Hloop).
    + by rewrite swap_Permutation.
    + rewrite (drop_S _ x (S k)) by (by eapply swap_lookup_l).
      rewrite (drop_S t x (S k)) by done.
      rewrite swap_drop by lia. by rewrite Hdrop.
    + rewrite swap_length. lia.
    + exists (λ i, if decide (i = S k) then j else random i). split.
      * intros i. case_decide; [lia|apply Hrandom].
      * cbn. rewrite decide_True by done. rewrite <-Hloop.
        apply shuffle_loop_ext. intros i Hi. by rewrite decide_False by lia.
Qed.
End shuffle_reach.

(** X6. Every reordering of the array is an outcome of [shuffleArray]:
    for each there are admissible draws for which the shuffle returns
    it. *)
Theorem shuffleArray_reaches {T} (array target : list T) :
  target ≡ₚ array →
  ∃ random : nat → nat,
    (∀ i, (random i ≤ i)%nat) ∧ shuffleArray random array = target.
Proof.
  intros Hperm. unfold shuffleArray.
  destruct array as [|a array].
  - apply Permutation_nil_r in Hperm as ->.
    exists (λ _, 0%nat). split; [intros; lia|done].
  - apply shuffle_loop_reaches; [done| |cbn; lia].
    pose proof (Permutation_length Hperm) as Hlen.
    rewrite !drop_ge; [done|cbn in *; lia..].
Qed.

Lemma shuffleArray_reaches_witness :
  ∃ random : nat → nat,
    (∀ i, (random i ≤ i)%nat) ∧ shuffleArray random [1; 2; 3] = [3; 1; 2].
Proof.
  apply (shuffleArray_reaches [1; 2; 3] [3; 1; 2]).
  apply (Permutation_cons_append [1; 2] 3).
Defined.

(** ** Navigation stays inside the collection *)

Lemma SharedModal_is_Some props s photos cur :
  images props = Some photos → currentImage props = Some cur →
  is_Some (SharedModal props s).
Proof.
  intros Himages Hcur. unfold SharedModal, filteredImages.
  rewrite Hcur, Himages. cbn.
  destruct (loaded s), (navigation props); cbn; eauto.
Qed.

(** X7. In a collection with dense ids, whatever a render lets the user
    do - the previous and next buttons, a thumbnail, a swipe to either
    side - asks for the id of a record of the collection, and the viewer
    rendered at that id shows it. *)
Theorem navigation_stays_in_collection props s v photos newVal :
  SharedModal props s = Some v → images props = Some photos →
  dense_ids photos →
  changePhotoId newVal
    ∈ viewCalls v ++ handlers (images props) (index props) SwipedLeft
        ++ handlers (images props) (index props) SwipedRight →
  ∃ A, A ∈ photos ∧ id A = newVal
    ∧ ∀ props' s', images props' = Some photos → index props' = newVal →
        currentImage props' = Some A ∧ is_Some (SharedModal props' s').
Proof.
  intros Hrender Himages Hdense Hcall.
  assert (∃ A, A ∈ photos ∧ id A = newVal) as (A & HA & HAid).
  { apply render_Some in Hrender as (cur & Hcur & _ & Hnone & Hthumbs & Ho).
    apply (currentImage_Some photos) in Hcur as [Hcur Hcurid]; [|done].
    pose proof (dense_ids_range photos cur Hdense Hcur) as Hrange.
    unfold viewCalls in Hcall. rewrite !elem_of_app in Hcall.
    destruct Hcall as [[Hbutton|Hthumb]|[Hswipe|Hswipe]].
    - destruct (overlay v) as [o|] eqn:Hoverlay; [|by apply elem_of_nil in Hbutton].
      destruct (Ho o eq_refl) as (Hclose & Hoff & Hon). cbn in Hbutton.
      rewrite Hclose in Hbutton.
      destruct (navigation props) eqn:Hnavigation.
      + destruct (Hon eq_refl) as (photos' & Hphotos' & Hprev & Hnext & _).
        rewrite Himages in Hphotos'. injection Hphotos' as <-.
        rewrite Hprev, Hnext in Hbutton. apply dense_ids_elem; [done|].
        rewrite !elem_of_app in Hbutton.
        destruct (Z.ltb_spec 0 (index props)),
                 (Z.ltb_spec (index props + 1) (Z.of_nat (length photos)));
          cbn in Hbutton;
          rewrite ?list_elem_of_singleton, ?elem_of_nil in Hbutton;
          destruct Hbutton as [Hb|[Hb|Hb]]; try done; injection Hb as ->; lia.
      + destruct (Hoff eq_refl) as (Hprev & Hnext & _).
        rewrite Hprev, Hnext in Hbutton. cbn in Hbutton.
        by apply list_elem_of_singleton in Hbutton.
    - destruct (bottomNav v) as [thumbnails|] eqn:HbottomNav;
        [|by apply elem_of_nil in Hthumb].
      destruct (navigation props) eqn:Hnavigation;
        [|by destruct Hnone as [_ Hnone]; specialize (Hnone eq_refl)].
      destruct (Hthumbs eq_refl) as (photos' & Hphotos' & Hnav).
      rewrite Himages in Hphotos'. injection Hphotos' as <-.
      injection Hnav as ->. cbn in Hthumb.
      apply list_elem_of_bind in Hthumb as (t & Ht & Hin).
      apply list_elem_of_fmap in Hin as (img & -> & Himg).
      apply list_elem_of_filter in Himg as [_ Himg]. cbn in Ht.
      apply list_elem_of_singleton in Ht. injection Ht as ->. by exists img.
    - rewrite handlers_neighbor, Himages in Hswipe. cbn in Hswipe.
      destruct (neighborByNavigationOrder _ _ _) as [B|] eqn:HB;
        [|by apply elem_of_nil in Hswipe].
      apply list_elem_of_singleton in Hswipe. injection Hswipe as ->.
      apply neighbor_Some in HB as (_ & _ & _ & HB & _). by exists B.
    - rewrite handlers_neighbor, Himages in Hswipe. cbn in Hswipe.
      destruct (neighborByNavigationOrder _ _ _) as [B|] eqn:HB;
        [|by apply elem_of_nil in Hswipe].
      apply list_elem_of_singleton in Hswipe. injection Hswipe as ->.
      apply neighbor_Some in HB as (_ & _ & _ & HB & _). by exists B. }
  exists A. split_and!; [done..|]. intros props' s' Himages' Hindex'.
  assert (currentImage props' = Some A) as Hcur'.
  { unfold currentImage. rewrite Himages', Hindex', <- HAid.
    apply find_unique; [by apply dense_ids_unique|done]. }
  split; [done|]. by eapply SharedModal_is_Some.
Qed.

Lemma navigation_stays_in_collection_witness :
  ∃ A, A ∈ photos_shuffled ∧ id A = 0
    ∧ ∀ props' s', images props' = Some photos_shuffled → index props' = 0 →
        currentImage props' = Some A ∧ is_Some (SharedModal props' s').
Proof.
  apply (navigation_stays_in_collection (viewer_at 1) (setLoaded true initialState)
           _ photos_shuffled 0 eq_refl eq_refl).
  - unfold dense_ids. cbn. apply (Permutation_refl (seqZ 0 3)).
  - apply list_elem_of_lookup. by exists 0%nat.
Defined.

(** ** Layout events compose *)

Lemma calculateDimensions_set currentImage window s :
  calculateDimensions currentImage window s
  = setDimensions (dimensions (calculateDimensions currentImage window initialState)) s.
Proof.
  unfold calculateDimensions. by destruct (JS.gt _ _).
Qed.

Lemma effect_absorbs props window1 window2 s :
  effect props window2 (effect props window1 s) = effect props window2 s.
Proof.
  unfold effect. destruct (currentImage props) as [cur|]; [|done].
  rewrite (calculateDimensions_set cur window2 (calculateDimensions cur window1 s)).
  rewrite (calculateDimensions_set cur window1 s).
  by rewrite (calculateDimensions_set cur window2 s).
Qed.

Lemma effect_setLoaded props window s :
  effect props window (setLoaded true s) = setLoaded true (effect props window s).
Proof.
  unfold effect. destruct (currentImage props) as [cur|]; [|done].
  rewrite (calculateDimensions_set cur window (setLoaded true s)).
  by rewrite (calculateDimensions_set cur window s).
Qed.

(** X8. The dimensions do not drift: after any history, a resize
    replaces what an earlier resize or the effect of the same props
    computed, so only the last viewport counts; the loading of the image
    and a resize can come in either order; a set flag stays set. *)
Theorem layout_events_compose c es props window1 window2 :
  run c (es ++ [Resize window1; Resize window2]) = run c (es ++ [Resize window2])
  ∧ run c (es ++ [Props props window1; Resize window2])
    = run c (es ++ [Props props window2])
  ∧ run c (es ++ [Load; Resize window2]) = run c (es ++ [Resize window2; Load])
  ∧ run c (es ++ [Load; Load]) = run c (es ++ [Load]).
Proof.
  unfold run. rewrite !foldl_app. destruct (foldl step c es) as [p s]. cbn.
  split_and!.
  - by rewrite effect_absorbs.
  - by rewrite effect_absorbs.
  - by rewrite effect_setLoaded.
  - done.
Qed.

(** ** Records with a side of length zero *)

Lemma of_Z_zero_or_finite n :
  - 2 ^ 53 < n < 2 ^ 53 →
  JS.of_Z n = S754_zero false ∨ ∃ s m e, JS.of_Z n = S754_finite s m e.
Proof.
  intros Hn. destruct (Z.eq_dec n 0) as [->|Hn0]; [by left|].
  destruct (of_Z_form n Hn0 Hn) as (m & e & -> & _). right. eauto.
Qed.

(** X9. A record with a side of length zero does not stop the layout.
    With height 0 and a positive width the ratio is +Infinity: the width
    is capped as for any landscape record and the height is 0. With
    width 0 and a positive height the width is 0 and the height is
    capped as for any portrait record. With both 0 the ratio is NaN and
    the width, which is the width asked of the image host, is NaN. *)
Theorem calculateDimensions_zero_side
    currentImage window s intrinsicWidth intrinsicHeight :
  JS.digits_value 0 (width currentImage) = Some intrinsicWidth →
  JS.digits_value 0 (height currentImage) = Some intrinsicHeight →
  intrinsicWidth < 2 ^ 53 → intrinsicHeight < 2 ^ 53 →
  - 2 ^ 31 ≤ innerWidth window < 2 ^ 31 →
  - 2 ^ 31 ≤ innerHeight window < 2 ^ 31 →
  let maxW := Z.min 1280 (innerWidth window - 100) in
  let maxH := innerHeight window - 100 in
  let d := dimensions (calculateDimensions currentImage window s) in
  (0 < intrinsicWidth → intrinsicHeight = 0 →
     Dimensions.width d = JS.of_Z (Z.min maxW intrinsicWidth)
     ∧ JS.integer_value (Dimensions.height d) = Some 0)
  ∧ (intrinsicWidth = 0 → 0 < intrinsicHeight →
     JS.integer_value (Dimensions.width d) = Some 0
     ∧ Dimensions.height d = JS.of_Z (Z.min maxH intrinsicHeight))
  ∧ (intrinsicWidth = 0 → intrinsicHeight = 0 →
     Dimensions.width d = JS.NaN
     ∧ Dimensions.height d = JS.of_Z (Z.min maxH 0)).
Proof.
  intros Hwidth Hheight Hw Hh HinnerWidth HinnerHeight maxW maxH.
  unfold calculateDimensions. cbv zeta.
  rewrite (Number_decimal _ _ Hwidth), (Number_decimal _ _ Hheight).
  rewrite !sub_of_Z by lia. rewrite Math_min_of_Z by lia. fold maxW maxH.
  split_and!.
  - intros Hpos ->.
    assert (JS.div (JS.of_Z intrinsicWidth) (JS.of_Z 0) = S754_infinity false)
      as ->.
    { destruct (of_Z_form intrinsicWidth) as (m & e & -> & _); [lia..|].
      by replace (intrinsicWidth <? 0) with false by lia. }
    change (JS.gt (S754_infinity false) (JS.of_Z 1)) with true.
    cbn [dimensions setDimensions Dimensions.width Dimensions.height].
    rewrite Math_min_of_Z by lia. rewrite Math_round_of_Z by lia.
    split; [done|].
    by destruct (of_Z_zero_or_finite (Z.min maxW intrinsicWidth))
      as [->|(s' & m' & e' & ->)]; [lia|..].
  - intros -> Hpos.
    assert (JS.div (JS.of_Z 0) (JS.of_Z intrinsicHeight) = S754_zero false) as ->.
    { destruct (of_Z_form intrinsicHeight) as (m & e & -> & _); [lia..|].
      by replace (intrinsicHeight <? 0) with false by lia. }
    change (JS.gt (S754_zero false) (JS.of_Z 1)) with false.
    cbn [dimensions setDimensions Dimensions.width Dimensions.height].
    rewrite Math_min_of_Z by lia. rewrite Math_round_of_Z by lia.
    split; [|done].
    by destruct (of_Z_zero_or_finite (Z.min maxH intrinsicHeight))
      as [->|(s' & m' & e' & ->)]; [lia|..].
  - intros -> ->.
    change (JS.div (JS.of_Z 0) (JS.of_Z 0)) with JS.NaN.
    change (JS.gt JS.NaN (JS.of_Z 1)) with false.
    cbn [dimensions setDimensions Dimensions.width Dimensions.height].
    rewrite Math_min_of_Z by lia. rewrite Math_round_of_Z by lia.
    split; [|done].
    by destruct (of_Z_zero_or_finite (Z.min maxH 0))
      as [->|(s' & m' & e' & ->)]; [lia|..].
Qed.

Lemma calculateDimensions_zero_side_witness :
  (0 < 1500 → 0 = 0 →
     Dimensions.width (dimensions (calculateDimensions (photo_sized "1500" "0")
                                     window_1400_900 initialState))
     = JS.of_Z (Z.min (Z.min 1280 (1400 - 100)) 1500)
     ∧ JS.integer_value
         (Dimensions.height (dimensions (calculateDimensions (photo_sized "1500" "0")
                                           window_1400_900 initialState)))
       = Some 0)
  ∧ (1500 = 0 → 0 < 0 →
     JS.integer_value
       (Dimensions.width (dimensions (calculateDimensions (photo_sized "1500" "0")
                                        window_1400_900 initialState)))
     = Some 0
     ∧ Dimensions.height (dimensions (calculateDimensions (photo_sized "1500" "0")
                                        window_1400_900 initialState))
       = JS.of_Z (Z.min (900 - 100) 0))
  ∧ (1500 = 0 → 0 = 0 →
     Dimensions.width (dimensions (calculateDimensions (photo_sized "1500" "0")
                                     window_1400_900 initialState))
     = JS.NaN
     ∧ Dimensions.height (dimensions (calculateDimensions (photo_sized "1500" "0")
                                        window_1400_900 initialState))
       = JS.of_Z (Z.min (900 - 100) 0)).
Proof.
  apply (calculateDimensions_zero_side
           (photo_sized "1500" "0") window_1400_900 initialState 1500 0);
    [reflexivity|reflexivity|reflexivity|reflexivity|cbn; lia|cbn; lia].
Defined.

(** ** The thumbnail of the current photo *)

(** In a list whose ids count up from [base], the records with an id
    in [lo..hi] keep their order, and the one with id [n] comes after
    the [n - max lo base] records before it in the window. *)
Lemma filter_window_lookup (l : list ImageProps) (base lo hi n : Z) :
  (∀ (i : nat) img, l !! i = Some img → id img = base + Z.of_nat i) →
  lo ≤ n ≤ hi → base ≤ n < base + Z.of_nat (length l) →
  ∃ img, l !! Z.to_nat (n - base) = Some img
    ∧ filter (λ img, id img ∈ range lo hi) l !! Z.to_nat (n - Z.max lo base)
      = Some img.
Proof.
  revert base. induction l as [|a l IH]; intros base Hl Hn Hbase; [cbn in Hbase; lia|].
  pose proof (Hl 0%nat a eq_refl) as Ha. cbn in Ha.
  assert (∀ (i : nat) img, l !! i = Some img → id img = (base + 1) + Z.of_nat i) as Hl'.
  { intros i img Hi. rewrite (Hl (S i) img Hi). lia. }
  cbn [length] in Hbase.
  destruct (decide (n = base)) as [->|Hne].
  - exists a. rewrite Z.sub_diag. split; [done|].
    rewrite filter_cons_True by (apply range_elem_of; lia).
    by replace (base - Z.max lo base) with 0 by lia.
  - destruct (IH (base + 1) Hl' Hn) as (img & Himg & Hfilter); [lia|].
    exists img. split.
    + replace (Z.to_nat (n - base)) with (S (Z.to_nat (n - (base + 1)))) by lia.
      done.
    + destruct (decide (lo ≤ base)) as [Hlo|Hlo].
      * rewrite filter_cons_True by (apply range_elem_of; lia).
        replace (Z.to_nat (n - Z.max lo base))
          with (S (Z.to_nat (n - Z.max lo (base + 1)))) by lia.
        done.
      * rewrite filter_cons_False by (rewrite range_elem_of; lia).
        by replace (Z.max lo base) with (Z.max lo (base + 1)) by lia.
Qed.

Lemma ids_match_positions_unique photos :
  ids_match_positions photos → unique_ids photos.
Proof.
  intros Hpos. unfold unique_ids. apply NoDup_alt. intros i j x Hi Hj.
  apply list_lookup_fmap_Some in Hi as (a & -> & Ha).
  apply list_lookup_fmap_Some in Hj as (b & Hab & Hb).
  apply Hpos in Ha, Hb. lia.
Qed.

(** X10. In a collection listed in the order of its ids, the filmstrip
    shows the thumbnail of the current photo once, highlighted, and no
    other thumbnail is highlighted; it stands after min(index, 15)
    thumbnails, and the strip is shifted left by as many thumbnail
    widths, which puts it in the middle. *)
Theorem filmstrip_current_thumbnail props s v photos thumbnails :
  SharedModal props s = Some v → images props = Some photos →
  bottomNav v = Some thumbnails →
  ids_match_positions photos →
  ∃ k : nat,
    thumbnails !! k
    = Some {| key := index props; selected := true;
              onClick := [changePhotoId (index props)] |}
    ∧ (∀ (k' : nat) t, thumbnails !! k' = Some t → selected t = true → k' = k)
    ∧ Z.of_nat k = Z.min (index props) 15
    ∧ animate_x (index props) = - 100 * Z.of_nat k.
Proof.
  intros Hrender Himages Hnav Hpos.
  apply render_Some in Hrender as (cur & Hcur & _ & Hnone & Hthumbs & _).
  apply (currentImage_Some photos) in Hcur as [Hcur Hcurid]; [|done].
  destruct (navigation props) eqn:Hnavigation;
    [|destruct Hnone as [_ Hnone]; rewrite Hnone in Hnav; done].
  destruct (Hthumbs eq_refl) as (photos' & Hphotos' & Hnav').
  rewrite Himages in Hphotos'. injection Hphotos' as <-.
  rewrite Hnav in Hnav'. injection Hnav' as ->.
  apply list_elem_of_lookup in Hcur as [i Hi].
  pose proof (Hpos i cur Hi) as Hidi.
  pose proof (lookup_lt_Some _ _ _ Hi) as Hlt.
  destruct (filter_window_lookup photos 0 (index props - 15) (index props + 15)
              (index props)) as (img & Himg & Hfilter); [|lia|lia|].
  { intros j a Hj. rewrite (Hpos j a Hj). lia. }
  assert (img = cur) as ->.
  { replace (Z.to_nat (index props - 0)) with i in Himg by lia. congruence. }
  exists (Z.to_nat (index props - Z.max (index props - 15) 0)).
  split_and!.
  - rewrite list_lookup_fmap, Hfilter. cbn. rewrite Hcurid, Z.eqb_refl. done.
  - intros k' t Hk' Hselected.
    apply list_lookup_fmap_Some in Hk' as (a & -> & Ha). cbn in Hselected.
    apply Z.eqb_eq in Hselected.
    pose proof (ids_match_positions_unique photos Hpos) as Hunique.
    assert (NoDup (id <$> filter (λ img, id img ∈ range (index props - 15)
                                          (index props + 15)) photos)) as Hnd.
    { eapply sublist_NoDup; [exact Hunique|].
      apply fmap_sublist, sublist_filter. }
    eapply (NoDup_lookup _ _ _ (index props) Hnd).
    + by rewrite list_lookup_fmap, Ha; cbn; rewrite Hselected.
    + by rewrite list_lookup_fmap, Hfilter; cbn; rewrite Hcurid.
  - lia.
  - unfold animate_x. lia.
Qed.

Lemma filmstrip_current_thumbnail_witness :
  ∃ k : nat,
    ((λ img, {| key := id img; selected := id img =? 20;
                onClick := [changePhotoId (id img)] |})
     <$> filter (λ img, id img ∈ range (20 - 15) (20 + 15)) photos_40) !! k
    = Some {| key := 20; selected := true; onClick := [changePhotoId 20] |}
    ∧ (∀ (k' : nat) t,
         ((λ img, {| key := id img; selected := id img =? 20;
                     onClick := [changePhotoId (id img)] |})
          <$> filter (λ img, id img ∈ range (20 - 15) (20 + 15)) photos_40) !! k'
         = Some t →
         selected t = true → k' = k)
    ∧ Z.of_nat k = Z.min 20 15
    ∧ animate_x 20 = - 100 * Z.of_nat k.
Proof.
  apply (filmstrip_current_thumbnail
           {| index := 20; images := Some photos_40; currentPhoto := None;
              navigation := true; direction := None |}
           initialState _ photos_40 _ eq_refl eq_refl eq_refl).
  intros i img Hi. unfold photos_40 in Hi.
  apply list_lookup_fmap_Some in Hi as (n & -> & Hn).
  apply lookup_seqZ in Hn as [-> _]. cbn. lia.
Defined.

(** ** Coming back to the grid *)

Lemma strict_eq_of_Z a b :
  - 2 ^ 53 < a < 2 ^ 53 → - 2 ^ 53 < b < 2 ^ 53 →
  Home.strict_eq (JS.of_Z a) (JS.of_Z b) = (a =? b).
Proof.
  intros Ha Hb. unfold Home.strict_eq, SFeqb. rewrite SFcompare_of_Z by done.
  destruct (Z.compare_spec a b), (Z.eqb_spec a b); done || lia.
Qed.

Lemma filter_no_id (l : list ImageProps) n :
  (∀ A, A ∈ l → id A ≠ n) → filter (λ img, id img = n) l = [].
Proof.
  induction l as [|a l IH]; intros Hl; [done|].
  rewrite filter_cons_False by (apply Hl; by left).
  apply IH. intros A HA. apply Hl. by right.
Qed.

Lemma filter_unique_id (l : list ImageProps) A :
  NoDup (id <$> l) → A ∈ l → filter (λ img, id img = id A) l = [A].
Proof.
  induction l as [|a l IH]; intros Hnd HA; [by apply elem_of_nil in HA|].
  rewrite fmap_cons in Hnd. apply NoDup_cons in Hnd as [Ha Hnd].
  apply elem_of_cons in HA as [->|HA].
  - rewrite filter_cons_True by done. f_equal. apply filter_no_id.
    intros B HB Heq. apply Ha. rewrite <- Heq. by apply list_elem_of_fmap_2.
  - rewrite filter_cons_False; [by apply IH|].
    intros Heq. apply Ha. rewrite Heq. by apply list_elem_of_fmap_2.
Qed.

(** The links that are handed the ref are those of the records whose id
    is the number [lastViewedPhoto] spells. *)
Lemma links_with_ref images s n :
  (∀ img, img ∈ images → - 2 ^ 53 < id img < 2 ^ 53) →
  JS.digits_value 0 s = Some n → n < 2 ^ 53 →
  filter (λ l, Home.ref l = true) (Home.links images (Some s))
  = (λ img, {| Home.key := id img; Home.ref := true |})
    <$> filter (λ img, id img = n) images.
Proof.
  intros Hids Hs Hn. pose proof (digits_value_ge _ _ _ Hs ltac:(lia)) as Hn0.
  unfold Home.links, Home.Number. rewrite (Number_decimal _ _ Hs).
  induction images as [|a images IH]; [done|].
  assert (Home.strict_eq (JS.of_Z (id a)) (JS.of_Z n) = (id a =? n)) as Heq
    by (apply strict_eq_of_Z; [apply Hids; by left|lia]).
  rewrite fmap_cons, !filter_cons. cbn [Home.ref]. rewrite Heq.
  rewrite IH by (intros img Himg; apply Hids; by right).
  destruct (Z.eqb_spec (id a) n) as [Han|Han].
  - rewrite decide_True by done. rewrite decide_True by done.
    by rewrite fmap_cons.
  - rewrite decide_False by done. by rewrite decide_False by done.
Qed.

(** X11. Back on the grid with no photo open, when the photo viewed last
    is given by a decimal id: if a record of the gallery has that id, its
    link is scrolled into view and the last viewed photo is forgotten; if
    no record has it, no link holds the ref, the effect throws a
    TypeError and the last viewed photo is kept. *)
Theorem Home_scrolls_to_last_viewed images lastViewedPhoto n :
  unique_ids images →
  (∀ img, img ∈ images → - 2 ^ 53 < id img < 2 ^ 53) →
  JS.digits_value 0 lastViewedPhoto = Some n → n < 2 ^ 53 →
  lastViewedPhoto ≠ ""%string →
  ((∃ A, A ∈ images ∧ id A = n) →
     Home.useEffect images None (Some lastViewedPhoto)
     = (Home.ScrollIntoView {| Home.key := n; Home.ref := true |}, None))
  ∧ ((∀ A, A ∈ images → id A ≠ n) →
     Home.useEffect images None (Some lastViewedPhoto)
     = (Home.TypeError, Some lastViewedPhoto)).
Proof.
  intros Hunique Hids Hs Hn Hne.
  unfold Home.useEffect, Home.lastViewedPhotoRef_current.
  rewrite (links_with_ref images lastViewedPhoto n) by done.
  assert (truthy (Some lastViewedPhoto) = true) as ->.
  { cbn. by destruct (String.eqb_spec lastViewedPhoto ""). }
  cbn [truthy negb andb]. split.
  - intros (A & HA & <-). by rewrite filter_unique_id.
  - intros Hnone. by rewrite filter_no_id.
Qed.

Lemma Home_scrolls_to_last_viewed_witness :
  ((∃ A, A ∈ photos_shuffled ∧ id A = 2) →
     Home.useEffect photos_shuffled None (Some "2"%string)
     = (Home.ScrollIntoView {| Home.key := 2; Home.ref := true |}, None))
  ∧ ((∀ A, A ∈ photos_shuffled → id A ≠ 2) →
     Home.useEffect photos_shuffled None (Some "2"%string)
     = (Home.TypeError, Some "2"%string)).
Proof.
  apply (Home_scrolls_to_last_viewed photos_shuffled "2" 2).
  - unfold unique_ids. cbn. apply (NoDup_seqZ 0 3).
  - intros img Himg. unfold photos_shuffled in Himg.
    repeat (apply elem_of_cons in Himg as [->|Himg]; [cbn; lia|]).
    by apply elem_of_nil in Himg.
  - reflexivity.
  - reflexivity.
  - discriminate.
Defined.

(** ** The API routes *)

Ltac break :=
  repeat match goal with
  | H : _ ∧ _ |- _ => destruct H
  | H : ∃ _, _ |- _ => destruct H
  | H : _ ∨ _ |- _ => destruct H
  | H : False |- _ => destruct H
  | |- _ ↔ _ => split
  | |- _ → _ => intro
  | |- ∀ _, _ => intro
  | |- ¬ _ => intro
  end.

Ltac settle :=
  break; simplify_eq/=;
  solve [lia | congruence | tauto | repeat split; eauto; congruence].

(** X12. The delete route calls the media host at most once, and only
    for a DELETE request whose [public_id] is one non-empty string,
    whatever cookie the request carries; any other method is answered
    405 and a missing, empty or repeated [public_id] 400, without a
    call. When the host is called, the answer is 200 with what the host
    answered, or 500 if the call throws. *)
Theorem delete_handler_guards {R} (destroy : string → Api.Outcome R) req :
  let response := fst (Api.delete.handler destroy req) in
  let destroyed := snd (Api.delete.handler destroy req) in
  (Api.status response = 405 ↔ Api.delete.method req ≠ "DELETE"%string)
  ∧ (Api.status response = 400 ↔
       Api.delete.method req = "DELETE"%string
       ∧ ∀ value, Api.delete.public_id req = Api.delete.Single value →
                  value = ""%string)
  ∧ (destroyed = [] ↔ Api.status response = 405 ∨ Api.status response = 400)
  ∧ (∀ value, value ∈ destroyed ↔
       destroyed = [value]
       ∧ Api.delete.method req = "DELETE"%string
       ∧ Api.delete.public_id req = Api.delete.Single value
       ∧ value ≠ ""%string)
  ∧ (∀ value, destroyed = [value] →
       match destroy value with
       | Api.Resolved result => response = Api.respond 200 (Api.Result result)
       | Api.Thrown message =>
           response = Api.respond 500 (Api.Failure "Delete failed" message None)
       end).
Proof.
  unfold Api.delete.handler.
  destruct (String.eqb_spec (Api.delete.method req) "DELETE") as [Hm|Hm];
    cbn [negb].
  2:{ cbn. setoid_rewrite elem_of_nil. split_and!; settle. }
  destruct (Api.delete.public_id req) as [|value|values] eqn:Hq;
    cbn [Api.delete.rejected].
  1,3: cbn; setoid_rewrite elem_of_nil; split_and!; settle.
  destruct (String.eqb_spec value "") as [->|Hv].
  { cbn. setoid_rewrite elem_of_nil. split_and!; settle. }
  destruct (destroy value) as [result|message] eqn:Hd; cbn;
    setoid_rewrite list_elem_of_singleton; split_and!; try settle.
  - split; [done|]. intros [_ H]. by specialize (H value eq_refl).
  - intros v [= <-]. by rewrite Hd.
  - split; [done|]. intros [_ H]. by specialize (H value eq_refl).
  - intros v [= <-]. by rewrite Hd.
Qed.

(** X13. The login route answers 200 exactly for a POST whose
    [password] is a non-empty string equal to the configured
    [ADMIN_PASSWORD]; it sets a cookie exactly then, and the cookie
    carries the password itself. With no password configured, or an
    empty one, no request is answered 200. *)
Theorem admin_auth_handler_authenticates ADMIN_PASSWORD req response :
  Api.admin_auth.handler ADMIN_PASSWORD req = Some response →
  (Api.status response = 200 ↔
     Api.admin_auth.method req = "POST"%string
     ∧ ∃ p, p ≠ ""%string
         ∧ Api.admin_auth.body req = Some (Api.admin_auth.Text p)
         ∧ ADMIN_PASSWORD = Some p)
  ∧ (Api.status response = 200 →
     ∃ p, ADMIN_PASSWORD = Some p
       ∧ Api.Set_Cookie response
         = Some ("admin-auth=" ++ p
                 ++ "; Path=/; HttpOnly; SameSite=Strict; Max-Age=86400")%string)
  ∧ (Api.status response ≠ 200 → Api.Set_Cookie response = None)
  ∧ (ADMIN_PASSWORD = None ∨ ADMIN_PASSWORD = Some ""%string →
     Api.status response ≠ 200).
Proof.
  unfold Api.admin_auth.handler.
  destruct (String.eqb_spec (Api.admin_auth.method req) "POST") as [Hm|Hm];
    cbn [negb].
  2:{ intros [= <-]. cbn. split_and!; settle. }
  destruct (Api.admin_auth.body req) as [password|]; [|done]. cbn [mbind option_bind].
  destruct password as [|s|truthy]; cbn [Api.admin_auth.missing].
  - intros [= <-]. cbn. split_and!; settle.
  - destruct (String.eqb_spec s "") as [->|Hs].
    + intros [= <-]. cbn. split_and!; settle.
    + destruct ADMIN_PASSWORD as [p|]; cbn [Api.admin_auth.matches].
      * destruct (String.eqb_spec s p) as [->|Hsp].
        -- intros [= <-]. cbn [Api.status Api.Set_Cookie default].
           split_and!; [|settle|settle|settle].
           split; [|done]. intros _. split; [done|]. by exists p.
        -- intros [= <-]. cbn. split_and!; settle.
      * intros [= <-]. cbn. split_and!; settle.
  - destruct truthy; cbn; intros [= <-]; cbn; split_and!; settle.
Qed.

Lemma admin_auth_handler_authenticates_witness :
  (Api.status authenticated_secret = 200 ↔
     "POST"%string = "POST"%string
     ∧ ∃ p, p ≠ ""%string
         ∧ Some (Api.admin_auth.Text "secret") = Some (Api.admin_auth.Text p)
         ∧ Some "secret"%string = Some p)
  ∧ (Api.status authenticated_secret = 200 →
     ∃ p, Some "secret"%string = Some p
       ∧ Api.Set_Cookie authenticated_secret
         = Some ("admin-auth=" ++ p
                 ++ "; Path=/; HttpOnly; SameSite=Strict; Max-Age=86400")%string)
  ∧ (Api.status authenticated_secret ≠ 200 →
     Api.Set_Cookie authenticated_secret = None)
  ∧ (Some "secret"%string = None ∨ Some "secret"%string = Some ""%string →
     Api.status authenticated_secret ≠ 200).
Proof.
  apply (admin_auth_handler_authenticates (Some "secret"%string)
           {| Api.admin_auth.method := "POST";
              Api.admin_auth.body := Some (Api.admin_auth.Text "secret") |}).
  reflexivity.
Defined.

(** X14. The upload route removes the temporary file only after the
    media host has taken it: when the call to the host throws, the file
    is left where it is and the answer is 500; when the removal throws,
    the answer is 500 although the image is on the host. The answer is
    200, with what the host answered, exactly when both calls went
    through. No call is made for a method other than POST or a form
    without a file. *)
Theorem upload_handler_cleanup {R}
    (upload : string → Api.Outcome R) (unlink : string → Api.Outcome unit) req :
  let response := fst (Api.upload.handler upload unlink req) in
  let effects := snd (Api.upload.handler upload unlink req) in
  (∀ filepath, Api.upload.unlinkSync filepath ∈ effects ↔
     Api.upload.uploader_upload filepath ∈ effects
     ∧ ∃ result, upload filepath = Api.Resolved result)
  ∧ (∀ filepath, Api.upload.uploader_upload filepath ∈ effects ↔
     Api.upload.method req = "POST"%string
     ∧ ∃ files, Api.upload.files_file req = Api.Resolved (Some (filepath :: files)))
  ∧ (Api.status response = 200 ↔
     ∃ filepath result u,
       effects = [Api.upload.uploader_upload filepath; Api.upload.unlinkSync filepath]
       ∧ upload filepath = Api.Resolved result
       ∧ unlink filepath = Api.Resolved u
       ∧ Api.json response = Api.Result result)
  ∧ (∀ filepath message,
       Api.upload.unlinkSync filepath ∈ effects →
       unlink filepath = Api.Thrown message →
       response = Api.upload.failed message).
Proof.
  unfold Api.upload.handler.
  destruct (String.eqb_spec (Api.upload.method req) "POST") as [Hm|Hm];
    cbn [negb].
  2:{ cbn. setoid_rewrite elem_of_nil. split_and!; settle. }
  destruct (Api.upload.files_file req) as [files|message] eqn:Hfiles.
  2:{ cbn. setoid_rewrite elem_of_nil. split_and!; settle. }
  destruct (files ≫= head) as [filepath|] eqn:Hhead.
  2:{ cbn. setoid_rewrite elem_of_nil. split_and!; settle. }
  assert (∃ l, files = Some (filepath :: l)) as [l ->].
  { destruct files as [[|f l]|]; simplify_eq/=. by exists l. }
  destruct (upload filepath) as [result|message] eqn:Hupload;
    [destruct (unlink filepath) as [u|message'] eqn:Hunlink|];
    cbn; repeat setoid_rewrite elem_of_cons; setoid_rewrite elem_of_nil;
    split_and!; try settle.
  split; [|done]. intros _. by exists filepath, result, u.
Qed.

(** ** The admin page *)

Lemma truthy_false v : truthy v = false ↔ v = None ∨ v = Some ""%string.
Proof.
  destruct v as [s|]; cbn; [|settle].
  destruct (String.eqb_spec s ""); settle.
Qed.

(** X15. The login of the admin page against the login route: with a
    non-empty password equal to the configured one the page is
    authenticated, the time is stored and the error is cleared; in
    every other case authentication and the stored time stay as they
    were and the error reads "Invalid password". *)
Theorem handleLogin_end_to_end ADMIN_PASSWORD now s :
  let s' := Admin.handleLogin (Admin.fetchAuth ADMIN_PASSWORD) now s in
  (Admin.password s ≠ ""%string ∧ ADMIN_PASSWORD = Some (Admin.password s) →
     Admin.isAuthenticated s' = true
     ∧ Admin.adminAuth s' = Some (Admin.Timestamp now)
     ∧ Admin.error s' = ""%string)
  ∧ (Admin.password s = ""%string ∨ ADMIN_PASSWORD ≠ Some (Admin.password s) →
     Admin.isAuthenticated s' = Admin.isAuthenticated s
     ∧ Admin.adminAuth s' = Admin.adminAuth s
     ∧ Admin.error s' = "Invalid password"%string).
Proof.
  unfold Admin.handleLogin, Admin.fetchAuth, Api.admin_auth.handler.
  cbn [Api.admin_auth.method Api.admin_auth.body String.eqb Ascii.eqb Bool.eqb
       negb mbind option_bind Api.admin_auth.missing Api.admin_auth.matches].
  destruct (String.eqb_spec (Admin.password s) "") as [Hp|Hp].
  - cbn. split_and!; settle.
  - destruct ADMIN_PASSWORD as [p|].
    + destruct (String.eqb_spec (Admin.password s) p) as [Hsp|Hsp];
        cbn; split_and!; settle.
    + cbn. split_and!; settle.
Qed.

Lemma checkAuth_fresh now refreshed s timestamp :
  Admin.adminAuth s = Some (Admin.Timestamp timestamp) →
  now - timestamp < Admin.thirtyMinutes →
  Admin.isAuthenticated (Admin.checkAuth now refreshed s) = true
  ∧ Admin.adminAuth (Admin.checkAuth now refreshed s)
    = Some (Admin.Timestamp refreshed).
Proof.
  intros Hs Hlt. unfold Admin.checkAuth. rewrite Hs.
  by destruct (Z.ltb_spec (now - timestamp) Admin.thirtyMinutes); [|lia].
Qed.

Lemma checkAuth_stale now refreshed s :
  (∀ timestamp, Admin.adminAuth s = Some (Admin.Timestamp timestamp) →
                ¬ now - timestamp < Admin.thirtyMinutes) →
  Admin.isAuthenticated (Admin.checkAuth now refreshed s) = false
  ∧ Admin.adminAuth (Admin.checkAuth now refreshed s) = None.
Proof.
  intros Hs. unfold Admin.checkAuth.
  destruct (Admin.adminAuth s) as [[timestamp|]|]; [|done..].
  specialize (Hs timestamp eq_refl).
  by destruct (Z.ltb_spec (now - timestamp) Admin.thirtyMinutes).
Qed.

(** Once the item is gone, every check leaves the page logged out. *)
Lemma checkAuth_runs_logged_out times s :
  Admin.adminAuth s = None → Admin.isAuthenticated s = false →
  Admin.isAuthenticated (Admin.checkAuth_runs times s) = false
  ∧ Admin.adminAuth (Admin.checkAuth_runs times s) = None.
Proof.
  revert s. induction times as [|t times IH]; intros s Hs Hout; [done|].
  destruct (checkAuth_stale (fst t) (snd t) s) as [Hauth Hitem];
    [by rewrite Hs|].
  by apply IH.
Qed.

Lemma checkAuth_runs_within times s timestamp :
  Admin.adminAuth s = Some (Admin.Timestamp timestamp) →
  Admin.isAuthenticated s = true →
  Admin.within_thirtyMinutes timestamp times →
  Admin.isAuthenticated (Admin.checkAuth_runs times s) = true
  ∧ Admin.adminAuth (Admin.checkAuth_runs times s)
    = Some (Admin.Timestamp (default timestamp (snd <$> last times))).
Proof.
  revert s timestamp.
  induction times as [|t times IH]; intros s timestamp Hs Hin Hwithin; [done|].
  destruct Hwithin as [Hlt Hwithin].
  destruct (checkAuth_fresh (fst t) (snd t) s timestamp Hs Hlt) as [Hauth Hitem].
  destruct (IH _ _ Hitem Hauth Hwithin) as [Hauth' Hitem'].
  split; [done|]. cbn [Admin.checkAuth_runs foldl] in *.
  unfold Admin.checkAuth_runs in Hitem'. rewrite Hitem'.
  rewrite last_cons. by destruct (last times).
Qed.

Lemma checkAuth_runs_not_within times s timestamp :
  Admin.adminAuth s = Some (Admin.Timestamp timestamp) →
  ¬ Admin.within_thirtyMinutes timestamp times →
  Admin.isAuthenticated (Admin.checkAuth_runs times s) = false
  ∧ Admin.adminAuth (Admin.checkAuth_runs times s) = None.
Proof.
  revert s timestamp.
  induction times as [|t times IH]; intros s timestamp Hs Hnot; [by destruct Hnot|].
  cbn [Admin.within_thirtyMinutes] in Hnot.
  destruct (decide (fst t - timestamp < Admin.thirtyMinutes)) as [Hlt|Hge].
  - destruct (checkAuth_fresh (fst t) (snd t) s timestamp Hs Hlt) as [_ Hitem].
    apply (IH _ _ Hitem). tauto.
  - destruct (checkAuth_stale (fst t) (snd t) s) as [Hauth Hitem].
    { intros ts. rewrite Hs. by intros [= <-]. }
    by apply (checkAuth_runs_logged_out times (Admin.checkAuth (fst t) (snd t) s)).
Qed.

(** X16. Whether the page stays authenticated is decided by the stored
    time alone: after a series of checks it is authenticated exactly
    when every check came less than thirty minutes after the time stored
    before it, and the stored time is then the one of the last check;
    once a check comes later, the item is removed and every later check
    finds the page logged out. *)
Theorem checkAuth_session s timestamp times :
  Admin.adminAuth s = Some (Admin.Timestamp timestamp) →
  times ≠ [] →
  let s' := Admin.checkAuth_runs times s in
  (Admin.within_thirtyMinutes timestamp times →
     Admin.isAuthenticated s' = true
     ∧ Admin.adminAuth s' = Admin.Timestamp ∘ snd <$> last times)
  ∧ (¬ Admin.within_thirtyMinutes timestamp times →
     Admin.isAuthenticated s' = false ∧ Admin.adminAuth s' = None).
Proof.
  intros Hs Hne. cbn zeta. split; [|by apply checkAuth_runs_not_within].
  destruct times as [|t times]; [done|]. intros [Hlt Hwithin].
  destruct (checkAuth_fresh (fst t) (snd t) s timestamp Hs Hlt) as [Hauth Hitem].
  destruct (checkAuth_runs_within times _ _ Hitem Hauth Hwithin) as [Hauth' Hitem'].
  split; [done|]. unfold Admin.checkAuth_runs in *. cbn [foldl].
  rewrite Hitem'. rewrite last_cons. by destruct (last times).
Qed.

Lemma checkAuth_session_witness :
  (Admin.within_thirtyMinutes 0 [(60000, 60001); (120000, 120001)] →
     Admin.isAuthenticated
       (Admin.checkAuth_runs [(60000, 60001); (120000, 120001)] logged_in_at_0) = true
     ∧ Admin.adminAuth
         (Admin.checkAuth_runs [(60000, 60001); (120000, 120001)] logged_in_at_0)
       = Admin.Timestamp ∘ snd <$> last [(60000, 60001); (120000, 120001)])
  ∧ (¬ Admin.within_thirtyMinutes 0 [(60000, 60001); (120000, 120001)] →
     Admin.isAuthenticated
       (Admin.checkAuth_runs [(60000, 60001); (120000, 120001)] logged_in_at_0) = false
     ∧ Admin.adminAuth
         (Admin.checkAuth_runs [(60000, 60001); (120000, 120001)] logged_in_at_0)
       = None).
Proof.
  apply (checkAuth_session logged_in_at_0 0 [(60000, 60001); (120000, 120001)]).
  - reflexivity.
  - discriminate.
Defined.

(** X17. Deleting from the admin page through the delete route: while
    another deletion is under way nothing happens; otherwise, when the
    id is not empty and the call to the media host returns, every image
    with that id leaves the list and the others keep their order; when
    the id is empty or the call throws, the list stays as it is and an
    alert is shown. In both cases no deletion is under way afterwards,
    and the cookie of the request plays no part. *)
Theorem handleDelete_end_to_end {R}
    (destroy : string → Api.Outcome R) cookie publicId s :
  let s' := fst (Admin.handleDelete (Admin.fetchDelete destroy cookie) publicId s) in
  let alerts := snd (Admin.handleDelete (Admin.fetchDelete destroy cookie) publicId s) in
  (truthy (Admin.isDeleting s) = true → s' = s ∧ alerts = [])
  ∧ (truthy (Admin.isDeleting s) = false →
     Admin.isDeleting s' = None
     ∧ (publicId ≠ ""%string ∧ (∃ result, destroy publicId = Api.Resolved result) →
        Admin.images s'
        = filter (λ img, Admin.CloudinaryImage.public_id img ≠ publicId)
            (Admin.images s)
        ∧ alerts = [])
     ∧ (publicId = ""%string ∨ (∃ message, destroy publicId = Api.Thrown message) →
        Admin.images s' = Admin.images s
        ∧ alerts = ["Failed to delete image"%string])).
Proof.
  unfold Admin.handleDelete, Admin.fetchDelete, Api.delete.handler. cbn.
  destruct (truthy (Admin.isDeleting s)); [done|]. split; [done|]. intros _.
  destruct (String.eqb_spec publicId "") as [->|Hp]; cbn.
  - split_and!; [done| |done]. by intros [? _].
  - destruct (destroy publicId) as [result|message]; cbn.
    + split_and!; [done|done|]. intros [|[? ?]]; done.
    + split_and!; [done| |done]. by intros [_ [? ?]].
Qed.

(** ** The upload queue *)

Section handleUpload_facts.
Variable compressImage : nat → Admin.File → option Admin.File.
Variable upload : nat → Admin.File → Api.Outcome Admin.CloudinaryImage.t.

Lemma alter_insert {A} (f : A → A) (l : list A) i x :
  l !! i = Some x → alter f i l = <[i:=f x]> l.
Proof.
  revert i. induction l as [|a l IH]; intros [|i] Hi; simplify_eq/=; [done|].
  by rewrite <- (IH i Hi).
Qed.

(** One turn of the loop rewrites the entry at its index and nothing
    else: a completed entry is left alone; any other ends completed,
    with one image added, or in error, with none. *)
Lemma uploadFile_spec i entry s :
  Admin.uploadingFiles s !! i = Some entry →
  ∃ entry' added,
    Admin.uploadingFiles (Admin.uploadFile compressImage upload i entry s)
    = <[i:=entry']> (Admin.uploadingFiles s)
    ∧ Admin.images (Admin.uploadFile compressImage upload i entry s)
      = Admin.images s ++ added
    ∧ Admin.same_cells s (Admin.uploadFile compressImage upload i entry s)
    ∧ (Admin.UploadingFile.status entry = Admin.Status.completed → entry' = entry ∧ added = [])
    ∧ (Admin.UploadingFile.status entry ≠ Admin.Status.completed →
       (Admin.UploadingFile.status entry' = Admin.Status.completed
        ∧ ∃ f result, upload i f = Api.Resolved result ∧ added = [result])
       ∨ (Admin.UploadingFile.status entry' = Admin.Status.error ∧ added = [])).
Proof.
  intros Hi. unfold Admin.uploadFile, Admin.same_cells.
  destruct entry as [file progress status error preview].
  cbn [Admin.UploadingFile.status Admin.UploadingFile.file].
  assert (∀ f g, alter f i (alter g i (Admin.uploadingFiles s))
                 = <[i:=f (g (Admin.UploadingFile.mk file progress status error preview))]>
                     (Admin.uploadingFiles s)) as Halter2.
  { intros f g. rewrite list_alter_alter_eq. by rewrite (alter_insert _ _ _ _ Hi). }
  assert (∀ f g h, alter f i (alter g i (alter h i (Admin.uploadingFiles s)))
                 = <[i:=f (g (h (Admin.UploadingFile.mk file progress status error preview)))]>
                     (Admin.uploadingFiles s)) as Halter3.
  { intros f g h. rewrite !list_alter_alter_eq. by rewrite (alter_insert _ _ _ _ Hi). }
  destruct status.
  3:{ eexists _, []. rewrite app_nil_r.
      split_and!; [by rewrite list_insert_id|done| |done|done].
      by destruct s. }
  all: destruct (Admin.MAX_FILE_SIZE <? Admin.size file);
    [destruct (compressImage i file) as [fileToUpload|]|];
    try destruct (upload i fileToUpload) as [result|message] eqn:Hupload;
    try destruct (upload i file) as [result|message] eqn:Hupload;
    unfold Admin.setUploadingFile;
    cbn [Admin.uploadingFiles Admin.images Admin.setUploadingFiles Admin.setImages];
    rewrite ?Halter3, ?Halter2;
    cbn [Admin.UploadingFile.file Admin.UploadingFile.error
         Admin.UploadingFile.preview Admin.UploadingFile.progress].
  all: try (eexists _, [result];
            split_and!; [reflexivity|reflexivity|reflexivity|done|];
            intros _; left; split; [done|]; eauto).
  all: eexists _, []; rewrite app_nil_r;
       (split_and!; [reflexivity|reflexivity|reflexivity|done|]);
       intros _; right; done.
Qed.

Lemma same_cells_trans s1 s2 s3 : Admin.same_cells s1 s2 → Admin.same_cells s2 s3 → Admin.same_cells s1 s3.
Proof. unfold Admin.same_cells. intros -> ->. by destruct s1. Qed.

Lemma upload_loop_spec entries i s :
  drop i (Admin.uploadingFiles s) = entries →
  let s' := Admin.upload_loop compressImage upload i entries s in
  take i (Admin.uploadingFiles s') = take i (Admin.uploadingFiles s)
  ∧ Forall2 Admin.handled entries (drop i (Admin.uploadingFiles s'))
  ∧ Admin.same_cells s s'
  ∧ ∃ added,
      Admin.images s' = Admin.images s ++ added
      ∧ Forall (λ img, ∃ k f, upload k f = Api.Resolved img) added
      ∧ Admin.completed_count (drop i (Admin.uploadingFiles s'))
        = (Admin.completed_count entries + length added)%nat.
Proof.
  revert i s. induction entries as [|entry entries IH]; intros i s Hdrop; cbn zeta.
  - cbn [Admin.upload_loop]. rewrite Hdrop. split_and!; [done|constructor| |].
    + unfold Admin.same_cells. by destruct s.
    + exists []. by rewrite app_nil_r.
  - assert (Admin.uploadingFiles s !! i = Some entry) as Hi.
    { rewrite <- (Nat.add_0_r i), <- lookup_drop, Hdrop. done. }
    destruct (uploadFile_spec i entry s Hi)
      as (entry' & added & Hqueue & Himages & Hcells & Hdone & Htodo).
    cbn [Admin.upload_loop].
    set (s1 := Admin.uploadFile compressImage upload i entry s) in *.
    pose proof (lookup_lt_Some _ _ _ Hi) as Hlt.
    destruct (IH (S i) s1) as (Htake & Hrest & Hcells' & added' & Himages' & Hadded' & Hcount).
    { rewrite Hqueue, drop_insert_lt by lia.
      rewrite (drop_S _ entry i Hi) in Hdrop. by injection Hdrop. }
    set (s' := Admin.upload_loop compressImage upload (S i) entries s1) in *.
    assert (Admin.uploadingFiles s' !! i = Some entry') as Hi'.
    { rewrite <- (lookup_take_lt _ (S i)) by lia. rewrite Htake.
      rewrite lookup_take_lt by lia. rewrite Hqueue.
      by rewrite list_lookup_insert_eq. }
    assert (Admin.handled entry entry') as Hentry.
    { split; [intros Hc; by destruct (Hdone Hc)|]. intros Hne.
      unfold Admin.settled. by destruct (Htodo Hne) as [[-> _]|[-> _]]. }
    split_and!.
    + assert (∀ l : list Admin.UploadingFile.t, take i l = take i (take (S i) l))
        as Htt by (intros l; rewrite take_take; f_equal; lia).
      rewrite (Htt (Admin.uploadingFiles s')), Htake, <- Htt, Hqueue.
      by rewrite take_insert_ge.
    + rewrite (drop_S _ entry' i Hi'). by constructor.
    + by eapply same_cells_trans.
    + exists (added ++ added'). split_and!.
      * by rewrite Himages', Himages, app_assoc.
      * apply Forall_app. split; [|done].
        destruct (decide (Admin.UploadingFile.status entry = Admin.Status.completed))
          as [Hc|Hc].
        -- destruct (Hdone Hc) as [_ ->]. constructor.
        -- destruct (Htodo Hc) as [[_ (f & result & Hup & ->)]|[_ ->]];
             [|constructor].
           constructor; [|constructor]. eauto.
      * rewrite (drop_S _ entry' i Hi'). unfold Admin.completed_count in *.
        rewrite length_app.
        destruct (decide (Admin.UploadingFile.status entry = Admin.Status.completed))
          as [Hc|Hc].
        -- destruct (Hdone Hc) as [-> ->].
           rewrite !filter_cons_True by done. cbn [length]. rewrite Hcount. lia.
        -- rewrite (filter_cons_False _ entry) by done.
           destruct (Htodo Hc) as [[Hc' (f & result & _ & ->)]|[He ->]].
           ++ rewrite filter_cons_True by done. cbn [length]. rewrite Hcount. lia.
           ++ rewrite filter_cons_False by (rewrite He; done).
              cbn [length]. rewrite Hcount. lia.
Qed.
End handleUpload_facts.

Lemma same_cells_fields s s' :
  Admin.same_cells s s' →
  Admin.isProcessing s' = Admin.isProcessing s
  ∧ Admin.clearQueueTimeout s' = Admin.clearQueueTimeout s.
Proof. intros H. by rewrite H. Qed.

Lemma handled_settled entries entries' :
  Forall2 Admin.handled entries entries' → Forall (λ e, Admin.settled e = true) entries'.
Proof.
  induction 1 as [|e e' l l' [Hdone Htodo] _ IH]; constructor; [|done].
  destruct (decide (Admin.UploadingFile.status e = Admin.Status.completed)) as [Hc|Hc].
  - rewrite (Hdone Hc). unfold Admin.settled. by rewrite Hc.
  - by apply Htodo.
Qed.

(** X18. [handleUpload] does nothing while another run is under way.
    Otherwise it leaves the entries that were completed as they are and
    every other entry completed or in error, so that no entry is left
    waiting or uploading, and it is not busy afterwards. The timer that
    clears the queue is set only if every entry was completed or in
    error already when the button was clicked: a run that had a waiting
    entry to handle leaves the queue settled and the timer as it
    was. *)
Theorem handleUpload_settles compressImage upload now s :
  let s' := Admin.handleUpload compressImage upload now s in
  (Admin.isProcessing s = true → s' = s)
  ∧ (Admin.isProcessing s = false →
     Admin.isProcessing s' = false
     ∧ Forall2 Admin.handled (Admin.uploadingFiles s) (Admin.uploadingFiles s')
     ∧ Admin.clearQueueTimeout s'
       = (if forallb Admin.settled (Admin.uploadingFiles s)
          then Some (now + 20000) else Admin.clearQueueTimeout s)
     ∧ (Exists (λ e, Admin.settled e = false) (Admin.uploadingFiles s) →
        Forall (λ e, Admin.settled e = true) (Admin.uploadingFiles s')
        ∧ Admin.clearQueueTimeout s' = Admin.clearQueueTimeout s)).
Proof.
  cbn zeta. unfold Admin.handleUpload.
  destruct (Admin.isProcessing s) eqn:Hbusy; [done|]. split; [done|]. intros _.
  destruct (upload_loop_spec compressImage upload (Admin.uploadingFiles s) 0
              (Admin.setIsProcessing true s) eq_refl)
    as (_ & Hhandled & Hcells & _).
  rewrite drop_0 in Hhandled.
  apply same_cells_fields in Hcells as [_ Htimer]. cbn in Htimer.
  set (s1 := Admin.upload_loop compressImage upload 0 (Admin.uploadingFiles s)
               (Admin.setIsProcessing true s)) in *.
  assert (Admin.clearQueueTimeout
            (Admin.setIsProcessing false
               (if forallb Admin.settled (Admin.uploadingFiles s)
                then Admin.setClearQueueTimeout (Some (now + 20000)) s1 else s1))
          = (if forallb Admin.settled (Admin.uploadingFiles s)
             then Some (now + 20000) else Admin.clearQueueTimeout s)) as Hclear.
  { destruct (forallb _ _); [done|]. cbn. done. }
  assert (Admin.uploadingFiles
            (Admin.setIsProcessing false
               (if forallb Admin.settled (Admin.uploadingFiles s)
                then Admin.setClearQueueTimeout (Some (now + 20000)) s1 else s1))
          = Admin.uploadingFiles s1) as Hqueue.
  { by destruct (forallb _ _). }
  rewrite Hqueue, Hclear. split_and!; [done|done|done|].
  intros Hwaiting. split; [by eapply handled_settled|].
  destruct (forallb Admin.settled (Admin.uploadingFiles s)) eqn:Hall; [|done].
  apply Exists_exists in Hwaiting as (e & Hin & He).
  rewrite forallb_forall in Hall. apply list_elem_of_In in Hin.
  rewrite (Hall e Hin) in He. done.
Qed.

(** X19. A run of [handleUpload] only adds to the list of images: it
    appends one image for every entry it turns completed, each of them
    the answer to one of its uploads, and none for an entry that ends
    in error. *)
Theorem handleUpload_images compressImage upload now s :
  Admin.isProcessing s = false →
  let s' := Admin.handleUpload compressImage upload now s in
  ∃ added,
    Admin.images s' = Admin.images s ++ added
    ∧ Forall (λ img, ∃ i file, upload i file = Api.Resolved img) added
    ∧ Admin.completed_count (Admin.uploadingFiles s')
      = (Admin.completed_count (Admin.uploadingFiles s) + length added)%nat.
Proof.
  intros Hbusy. cbn zeta. unfold Admin.handleUpload. rewrite Hbusy.
  destruct (upload_loop_spec compressImage upload (Admin.uploadingFiles s) 0
              (Admin.setIsProcessing true s) eq_refl)
    as (_ & _ & _ & added & Himages & Hadded & Hcount).
  rewrite drop_0 in Hcount. exists added.
  by destruct (forallb Admin.settled (Admin.uploadingFiles s)).
Qed.

Lemma handleUpload_images_witness :
  ∃ added,
    Admin.images (Admin.handleUpload compress_none upload_answered 0 one_waiting)
    = Admin.images one_waiting ++ added
    ∧ Forall (λ img, ∃ i file, upload_answered i file = Api.Resolved img) added
    ∧ Admin.completed_count
        (Admin.uploadingFiles
           (Admin.handleUpload compress_none upload_answered 0 one_waiting))
      = (Admin.completed_count (Admin.uploadingFiles one_waiting) + length added)%nat.
Proof.
  apply (handleUpload_images compress_none upload_answered 0 one_waiting).
  reflexivity.
Defined.
